(** * ComponentContainer (src/componentContainer.js)

    A shallow embedding of the ComponentContainer mixin of LiteScene and the
    properties its specification states about it.

    JavaScript objects have identity and are mutated in place, so hosts
    (scene nodes) and components live in a store and are named by references.
    Every method becomes a function in a small state-and-exception monad over
    that store; a [throw] keeps the store as it was at the point of the throw.

    The collaborators that are not part of the file (component hooks,
    [LEvent], [console], the [configure] method of the transform) are
    recorded, call by call, in the [log] of the store; they are taken not to
    touch the container themselves. [LS.Components] and [LS.generateUId] are
    parameters of the development. *)

From Stdlib Require Import ZArith Lia.
From stdpp Require Import base decidable option list strings pretty gmap.

Local Open Scope Z_scope.

(** ** Values and plain data objects *)

(** The JavaScript values a serialized property can hold. *)
Inductive Value : Type :=
| VUndefined
| VNull
| VBool (b : bool)
| VNum (z : Z)
| VStr (s : string).

#[global] Instance Value_eq_dec : EqDecision Value.
Proof. solve_decision. Defined.

(** [!v] is [negb (truthy v)]. *)
Definition truthy (v : Value) : bool :=
  match v with
  | VUndefined | VNull => false
  | VBool b => b
  | VNum z => negb (z =? 0)
  | VStr s => negb (String.eqb s "")
  end.

(** A plain data object, as returned by [serialize]: property name to value. *)
Abbreviation Data := (gmap string Value).

(** [obj.k]: a missing property reads as [undefined]. *)
Definition prop (obj : Data) (k : string) : Value :=
  default VUndefined (obj !! k).

(** ** Objects in the store *)

Definition ref : Type := nat.
Bind Scope nat_scope with ref.

(** What a variable that is expected to hold an object can hold. *)
Inductive Ref : Type :=
| Undefined
| Null
| Obj (r : ref).

#[global] Instance Ref_eq_dec : EqDecision Ref.
Proof. solve_decision. Defined.

(** [!x] for such a variable: only an object is truthy. *)
Definition is_obj (x : Ref) : bool :=
  match x with Obj _ => true | _ => false end.

(** A constructor function: its identity and its [name] property. *)
Record Class : Type := { class_id : nat; name : string }.

#[global] Instance Class_eq_dec : EqDecision Class.
Proof. solve_decision. Defined.

(** A component instance. [uid] is the own property ([None] when
    [hasOwnProperty("uid")] is false); [serialize] is [None] when the
    component has no such method and otherwise holds the fresh object that a
    call to it returns; the two hook fields say whether the method exists. *)
Record Component : Type := {
  constructor : Class;
  _root : Ref;
  uid : option string;
  onAddedToNode : bool;
  onRemovedFromNode : bool;
  serialize : option Data
}.

(** A host (scene node): [_components] is [None] until the first
    [addComponent] defines the property. *)
Record Host : Type := {
  _components : option (list ref);
  transform : Ref
}.

(** The object passed to [serializeComponents] and [configureComponents]:
    only its [components] property is read or written. *)
Record Info : Type := {
  components : option (list (string * Data))
}.

(** Calls to collaborators outside the file, in the order they happen. *)
Inductive Event : Type :=
| console_error (msg : string)
| call_onAddedToNode (c h : ref)
| call_onRemovedFromNode (c h : ref)
| LEvent_unbindAll (h c : ref)
| call_configure (t : ref) (d : Data).

Record World : Type := {
  hosts : list Host;
  comps : list Component;
  uid_calls : nat;
  log : list Event
}.

(** The part of the global [LS] object the file uses. [generateUId] takes
    the number of earlier calls in place of the clock and the random source
    of the real generator. *)
Record LiteScene : Type := {
  Components : gmap string (Data → Component);
  generateUId : string → nat → string
}.

(** Modelled from the spec: [getObjectClassName] is defined outside the file;
    the spec calls its result the class name of the component, which is the
    name of its constructor. *)
Definition getObjectClassName (C : Component) : string :=
  name (constructor C).

(** ** Field updates *)

Definition set_root (x : Ref) (C : Component) : Component :=
  {| constructor := constructor C; _root := x; uid := uid C;
     onAddedToNode := onAddedToNode C;
     onRemovedFromNode := onRemovedFromNode C;
     serialize := serialize C |}.

Definition set_uid (u : string) (C : Component) : Component :=
  {| constructor := constructor C; _root := _root C; uid := Some u;
     onAddedToNode := onAddedToNode C;
     onRemovedFromNode := onRemovedFromNode C;
     serialize := serialize C |}.

Definition set_components (l : list ref) (H : Host) : Host :=
  {| _components := Some l; transform := transform H |}.

Definition set_info_components (l : list (string * Data)) (o : Info) : Info :=
  {| components := Some l |}.

(** ** The monad *)

Inductive Exn : Type :=
| TypeError (msg : string)
| Thrown (msg : string).

(** [Dangling] marks a run that used a reference to an object that is not in
    the store, which no JavaScript run does; [OutOfFuel] a loop cut short;
    [Unrepresented] a run that attaches an object the [Component] record
    cannot hold (see [as_component]). *)
Inductive Result (A : Type) : Type :=
| Return (v : A) (W : World)
| Raise (e : Exn) (W : World)
| Dangling
| OutOfFuel
| Unrepresented.

Arguments Return {A} v W.
Arguments Raise {A} e W.
Arguments Dangling {A}.
Arguments OutOfFuel {A}.
Arguments Unrepresented {A}.

Definition M (A : Type) : Type := World → Result A.

Definition ret {A} (v : A) : M A := fun W => Return v W.

Definition bind {A B} (m : M A) (k : A → M B) : M B :=
  fun W =>
    match m W with
    | Return v W' => k v W'
    | Raise e W' => Raise e W'
    | Dangling => Dangling
    | OutOfFuel => OutOfFuel
    | Unrepresented => Unrepresented
    end.

Notation "'let*' x ':=' m 'in' k" := (bind m (fun x => k))
  (at level 10, x name, m at level 100, k at level 200).
Notation "m ';;;' k" := (bind m (fun _ => k))
  (at level 100, k at level 200, right associativity).

Definition raise {A} (e : Exn) : M A := fun W => Raise e W.

Definition when (b : bool) (m : M unit) : M unit :=
  if b then m else ret tt.

Definition emit (e : Event) : M unit :=
  fun W => Return tt {| hosts := hosts W; comps := comps W;
                        uid_calls := uid_calls W; log := log W ++ [e] |}.

Definition getComp (c : ref) : M Component :=
  fun W => match comps W !! c with
           | Some C => Return C W
           | None => Dangling
           end.

Definition getHost (h : ref) : M Host :=
  fun W => match hosts W !! h with
           | Some H => Return H W
           | None => Dangling
           end.

Definition modComp (c : ref) (f : Component → Component) : M unit :=
  fun W => match comps W !! c with
           | Some C =>
               Return tt {| hosts := hosts W; comps := <[c := f C]> (comps W);
                            uid_calls := uid_calls W; log := log W |}
           | None => Dangling
           end.

Definition modHost (h : ref) (f : Host → Host) : M unit :=
  fun W => match hosts W !! h with
           | Some H =>
               Return tt {| hosts := <[h := f H]> (hosts W); comps := comps W;
                            uid_calls := uid_calls W; log := log W |}
           | None => Dangling
           end.

(** [new K(data)]: the constructed object gets the next free reference. *)
Definition new (C : Component) : M ref :=
  fun W => Return (length (comps W))
             {| hosts := hosts W; comps := comps W ++ [C];
                uid_calls := uid_calls W; log := log W |}.

(** ** Array primitives *)

(** [Array.prototype.indexOf] on an array of objects: position of the first
    element identical to [x], or -1. *)
Fixpoint indexOf_from (i : Z) (l : list ref) (x : ref) : Z :=
  match l with
  | [] => -1
  | y :: l' => if decide (y = x) then i else indexOf_from (i + 1) l' x
  end.

Definition indexOf (l : list ref) (x : ref) : Z := indexOf_from 0 l x.

(** [l.splice(pos, 1)] for a position returned by [indexOf]. *)
Definition splice1 (pos : Z) (l : list ref) : list ref :=
  delete (Z.to_nat pos) l.

(** [l[index]] for an integer index. *)
Definition nth_ref (l : list ref) (index : Z) : Ref :=
  if index <? 0 then Undefined
  else match l !! Z.to_nat index with
       | Some r => Obj r
       | None => Undefined
       end.

(** ** The registry object *)

(** [LS.Components] is a plain object: besides the registered classes, a
    read of [LS.Components[name]] finds the members every object inherits
    from [Object.prototype]. *)
Definition Object_prototype_members : list string :=
  ["constructor"; "hasOwnProperty"; "isPrototypeOf"; "propertyIsEnumerable";
   "toLocaleString"; "toString"; "valueOf"; "__proto__";
   "__defineGetter__"; "__defineSetter__"; "__lookupGetter__";
   "__lookupSetter__"].

(** What such a read finds: nothing, a registered class, [Object] itself
    (under the name "constructor"), or another inherited member, which is
    truthy but no constructor. *)
Inductive RegistryValue : Type :=
| NotFound
| Registered (K : Data → Component)
| ObjectItself
| NotAConstructor.

Definition read_registry (registry : gmap string (Data → Component))
  (comp_class : string) : RegistryValue :=
  match registry !! comp_class with
  | Some K => Registered K
  | None =>
      if String.eqb comp_class "constructor" then ObjectItself
      else if bool_decide (comp_class ∈ Object_prototype_members)
           then NotAConstructor
           else NotFound
  end.

(** The constructor of a plain object. *)
Definition Object_class : Class := {| class_id := 0; name := "Object" |}.

(** [new Object(data)] is the object [data] itself, which [addComponent]
    then treats as a component. This reads a data object as a component:
    it has no hook and no [serialize] when these properties are falsy, and
    its own [uid], if it has one. The record cannot hold a data object with a
    [constructor] property of its own, with a truthy value where a method
    is expected, or with a [uid] that is no string. The entries of an
    [Info] are taken to be distinct objects. *)
Definition as_component (data : Data) : option Component :=
  if bool_decide (is_Some (data !! "constructor"))
     || truthy (prop data "onAddedToNode")
     || truthy (prop data "onRemovedFromNode")
     || truthy (prop data "serialize")
  then None
  else
    let object (u : option string) : Component :=
      {| constructor := Object_class; _root := Undefined; uid := u;
         onAddedToNode := false; onRemovedFromNode := false;
         serialize := None |} in
    match data !! "uid" with
    | None => Some (object None)
    | Some (VStr u) => Some (object (Some u))
    | Some _ => None
    end.

(** ** The methods *)

Section ComponentContainer.

Variable LS : LiteScene.

(** [LS.generateUId(prefix)]. *)
Definition LS_generateUId (prefix : string) : M string :=
  fun W => Return (generateUId LS prefix (uid_calls W))
             {| hosts := hosts W; comps := comps W;
                uid_calls := S (uid_calls W); log := log W |}.

(** [addComponent], lines 103-122. *)
Definition addComponent (this : ref) (component : Ref) : M Ref :=
  match component with
  | Obj c =>
      let* C := getComp c in
      modComp c (set_root (Obj this)) ;;;
      when (onAddedToNode C) (emit (call_onAddedToNode c this)) ;;;
      let* H := getHost this in
      match _components H with
      | None => modHost this (set_components [])
      | Some _ => ret tt
      end ;;;
      let* H := getHost this in
      let l := default [] (_components H) in
      if negb (indexOf l c =? -1)
      then raise (Thrown "inserting the same component twice")
      else
        modHost this (set_components (l ++ [c])) ;;;
        let* C := getComp c in
        match uid C with
        | Some _ => ret tt
        | None =>
            let* u := LS_generateUId "COMP-" in
            modComp c (set_uid u)
        end ;;;
        ret (Obj c)
  | _ =>
      emit (console_error "addComponent cannot receive null") ;;;
      ret Undefined
  end.

(** [removeComponent], lines 129-145. *)
Definition removeComponent (this : ref) (component : Ref) : M unit :=
  match component with
  | Obj c =>
      let* C := getComp c in
      modComp c (set_root Null) ;;;
      when (onRemovedFromNode C) (emit (call_onRemovedFromNode c this)) ;;;
      emit (LEvent_unbindAll this c) ;;;
      let* H := getHost this in
      match _components H with
      | None => raise (TypeError "Cannot read property 'indexOf' of undefined")
      | Some l =>
          let pos := indexOf l c in
          when (negb (pos =? -1)) (modHost this (set_components (splice1 pos l)))
      end
  | _ => emit (console_error "removeComponent cannot receive null")
  end.

(** The [while] loop of [removeAllComponents], lines 154-155: the condition
    is read first, a unit of fuel is spent on each run of the body. *)
Fixpoint removeAllComponents_loop (fuel : nat) (this : ref) : M unit :=
  let* H := getHost this in
  match _components H with
  | None => raise (TypeError "Cannot read property 'length' of undefined")
  | Some [] => ret tt
  | Some (c :: _) =>
      match fuel with
      | O => fun _ => OutOfFuel
      | S fuel' =>
          removeComponent this (Obj c) ;;;
          removeAllComponents_loop fuel' this
      end
  end.

(** [removeAllComponents], lines 152-156. Every run of the body removes the
    first element, so the length of the collection on entry is fuel enough
    (see [removeAllComponents_terminates]). *)
Definition removeAllComponents (this : ref) : M unit :=
  fun W =>
    let fuel :=
      match hosts W !! this with
      | Some H => length (default [] (_components H))
      | None => O
      end in
    removeAllComponents_loop fuel this W.

(** The argument of [hasComponent] and [getComponent]: a string with the
    name of the class, the class itself, or no object at all. *)
Inductive ClassArg : Type :=
| ByName (s : string)
| ByClass (k : Class)
| NoClass.

(** The [for ... in] loops of the three lookups: the first component of the
    collection that passes the test, or [null]. *)
Fixpoint first_match (p : Component → bool) (l : list ref) : M Ref :=
  match l with
  | [] => ret Null
  | r :: l' =>
      let* C := getComp r in
      if p C then ret (Obj r) else first_match p l'
  end.

Definition class_test (a : ClassArg) (C : Component) : bool :=
  match a with
  | ByName s => bool_decide (name (constructor C) = s)
  | ByClass k => bool_decide (constructor C = k)
  | NoClass => false
  end.

(** [getComponent], lines 191-210. *)
Definition getComponent (this : ref) (component_class : ClassArg) : M Ref :=
  let* H := getHost this in
  match _components H with
  | None => ret Null
  | Some l =>
      match component_class with
      | NoClass =>
          raise (TypeError "Cannot read property 'constructor' of undefined")
      | _ => first_match (class_test component_class) l
      end
  end.

(** [hasComponent], lines 164-183: the same two loops, returning whether a
    match was found. *)
Definition hasComponent (this : ref) (component_class : ClassArg) : M bool :=
  let* H := getHost this in
  match _components H with
  | None => ret false
  | Some l =>
      match component_class with
      | NoClass =>
          raise (TypeError "Cannot read property 'constructor' of undefined")
      | _ =>
          let* r := first_match (class_test component_class) l in
          ret (is_obj r)
      end
  end.

(** [getComponentByUId], lines 217-225, for a string argument. *)
Definition getComponentByUId (this : ref) (u : string) : M Ref :=
  let* H := getHost this in
  match _components H with
  | None => ret Null
  | Some l => first_match (fun C => bool_decide (uid C = Some u)) l
  end.

(** [getIndexOfComponent], lines 232-237. *)
Definition getIndexOfComponent (this : ref) (component : Ref) : M Z :=
  let* H := getHost this in
  match _components H with
  | None => ret (-1)
  | Some l =>
      match component with
      | Obj c => ret (indexOf l c)
      | _ => ret (-1)
      end
  end.

(** [getComponentByIndex], lines 244-249, for an integer index. *)
Definition getComponentByIndex (this : ref) (index : Z) : M Ref :=
  let* H := getHost this in
  match _components H with
  | None => ret Null
  | Some l => ret (nth_ref l index)
  end.

(** [getComponents], lines 92-95. *)
Definition getComponents (this : ref) : M (option (list ref)) :=
  let* H := getHost this in
  ret (_components H).

(** Lines 77-83: the pair pushed for a component that has [serialize]. *)
Definition serialized (C : Component) (obj : Data) : string * Data :=
  let obj' :=
    match uid C with
    | Some u => if negb (truthy (prop obj "uid"))
                then <["uid" := VStr u]> obj else obj
    | None => obj
    end in
  (getObjectClassName C, obj').

(** The loop of [serializeComponents], lines 72-84; [acc] is
    [o.components]. *)
Fixpoint serialize_loop (l : list ref) (acc : list (string * Data))
  : M (list (string * Data)) :=
  match l with
  | [] => ret acc
  | c :: l' =>
      let* C := getComp c in
      match serialize C with
      | None => serialize_loop l' acc
      | Some obj => serialize_loop l' (acc ++ [serialized C obj])
      end
  end.

(** [serializeComponents], lines 67-85; returns the object [o] as the call
    leaves it. *)
Definition serializeComponents (this : ref) (o : Info) : M Info :=
  let* H := getHost this in
  match _components H with
  | None => ret o
  | Some l =>
      let* pairs := serialize_loop l [] in
      ret (set_info_components pairs o)
  end.

(** The loop of [configureComponents], lines 42-57; [i] is the index. *)
Fixpoint configure_loop (this : ref) (i : nat)
  (entries : list (string * Data)) : M unit :=
  match entries with
  | [] => ret tt
  | (comp_class, data) :: rest =>
      if String.eqb comp_class "Transform" && Nat.eqb i 0
      then
        let* H := getHost this in
        match transform H with
        | Obj t =>
            getComp t ;;;
            emit (call_configure t data) ;;;
            configure_loop this (S i) rest
        | _ => raise (TypeError "Cannot read property 'configure' of undefined")
        end
      else
        match read_registry (Components LS) comp_class with
        | NotFound =>
            emit (console_error ("Unknown component found: " +:+ comp_class)) ;;;
            configure_loop this (S i) rest
        | Registered K =>
            let* comp := new (K data) in
            addComponent this (Obj comp) ;;;
            configure_loop this (S i) rest
        | ObjectItself =>
            match as_component data with
            | Some C =>
                let* comp := new C in
                addComponent this (Obj comp) ;;;
                configure_loop this (S i) rest
            | None => fun _ => Unrepresented
            end
        | NotAConstructor =>
            raise (TypeError "LS.Components[comp_class] is not a constructor")
        end
  end.

(** [configureComponents], lines 38-59. *)
Definition configureComponents (this : ref) (info : Info) : M unit :=
  match components info with
  | None => ret tt
  | Some entries => configure_loop this 0 entries
  end.

End ComponentContainer.

(** ** Example objects *)

Definition Transform : Class := {| class_id := 0; name := "Transform" |}.
Definition Light : Class := {| class_id := 1; name := "Light" |}.
Definition Camera : Class := {| class_id := 2; name := "Camera" |}.

(** A constructor that keeps the data it is given and hands it back from
    [serialize]. *)
Definition demo_new (k : Class) (data : Data) : Component :=
  {| constructor := k; _root := Undefined; uid := None;
     onAddedToNode := false; onRemovedFromNode := false;
     serialize := Some data |}.

Definition demo_LS : LiteScene :=
  {| Components :=
       {[ "Transform" := demo_new Transform;
          "Light" := demo_new Light;
          "Camera" := demo_new Camera ]};
     generateUId := fun prefix n => prefix +:+ pretty n |}.

Definition demo_component (k : Class) (h : Ref) (u : option string)
  (data : option Data) : Component :=
  {| constructor := k; _root := h; uid := u;
     onAddedToNode := true; onRemovedFromNode := true;
     serialize := data |}.

Definition demo_light_data : Data := {[ "intensity" := VNum 3 ]}.
Definition demo_camera_data : Data := {[ "fov" := VNum 45 ]}.
Definition demo_transform_data : Data := {[ "x" := VNum 1 ]}.

(** The components of the example store; component 2 is a light that was
    never attached, component 5 the transform of host 3. *)
Definition demo_comp0 : Component :=
  demo_component Transform (Obj 0) (Some "COMP-0") (Some demo_transform_data).
Definition demo_comp1 : Component :=
  demo_component Light (Obj 0) (Some "COMP-1") (Some demo_light_data).
Definition demo_comp2 : Component :=
  demo_component Light Undefined None (Some demo_light_data).
Definition demo_comp3 : Component :=
  demo_component Camera (Obj 2) (Some "COMP-2") (Some demo_camera_data).
Definition demo_comp4 : Component :=
  demo_component Light (Obj 2) (Some "COMP-3") (Some demo_light_data).
Definition demo_comp5 : Component :=
  demo_component Transform (Obj 3) (Some "COMP-4") (Some demo_transform_data).

(** Host 0 holds a transform and a light, host 1 never had a component,
    host 2 holds a camera and a light, host 3 never had a component but has
    its transform. *)
Definition demo_host0 : Host :=
  {| _components := Some [0; 1]%nat; transform := Obj 0 |}.
Definition demo_host1 : Host :=
  {| _components := None; transform := Undefined |}.
Definition demo_host2 : Host :=
  {| _components := Some [3; 4]%nat; transform := Undefined |}.
Definition demo_host3 : Host :=
  {| _components := None; transform := Obj 5 |}.

Definition demo_world : World :=
  {| hosts := [demo_host0; demo_host1; demo_host2; demo_host3];
     comps := [demo_comp0; demo_comp1; demo_comp2; demo_comp3; demo_comp4;
               demo_comp5];
     uid_calls := 5;
     log := [] |}.

(** ** Derived notions used in the statements *)

(** The log entry of a hook that is called only when the method exists. *)
Definition hook_log (present : bool) (e : Event) : list Event :=
  if present then [e] else [].

(** A component as a successful [addComponent] on host [h] leaves it, when
    [n] calls of the generator have gone before. *)
Definition attached (LS : LiteScene) (n : nat) (h : ref) (C : Component)
  : Component :=
  match uid C with
  | Some _ => set_root (Obj h) C
  | None => set_uid (generateUId LS "COMP-" n) (set_root (Obj h) C)
  end.

(** The collection of host [h], the uninitialized one read as empty. *)
Definition collection (W : World) (h : ref) : list ref :=
  match hosts W !! h with
  | Some H => default [] (_components H)
  | None => []
  end.

(** In the words of the specification: one pair [class_name, data] for each
    component of [l] that exposes [serialize], in the order of [l]; the
    others are skipped. [cs] is the component store. *)
Definition pairs_of (cs : list Component) (l : list ref)
  : list (string * Data) :=
  omap (fun c => C ← cs !! c; obj ← serialize C; Some (serialized C obj)) l.

(** The reading of [serializeComponents] under which it appends to the list
    the target already has. *)
Definition appends_to_target (W : World) (h : ref) (o : Info) : Prop :=
  ∃ o', serializeComponents h o W = Return o' W
      ∧ components o'
        = Some (default [] (components o)
                ++ pairs_of (comps W) (collection W h)).

(** Serializing host [h] into an empty target and configuring host [h'] with
    the result gives [h'] a collection that serializes to the same pairs. *)
Definition round_trip (LS : LiteScene) (W : World) (h h' : ref) : Prop :=
  ∃ o W1, serializeComponents h {| components := None |} W = Return o W
        ∧ configureComponents LS h' o W = Return tt W1
        ∧ pairs_of (comps W1) (collection W1 h')
          = pairs_of (comps W) (collection W h).

(** The class named in the entry is registered, and its constructor builds,
    from the data of the entry, a component of that class name whose
    [serialize] hands the data back. *)
Definition reconstructs (LS : LiteScene) (e : string * Data) : Prop :=
  ∃ K, Components LS !! e.1 = Some K
     ∧ name (constructor (K e.2)) = e.1
     ∧ serialize (K e.2) = Some e.2.

(** The calls a client can make that may change the store. *)
Inductive Call : Type :=
| Call_addComponent (h : ref) (component : Ref)
| Call_removeComponent (h : ref) (component : Ref)
| Call_removeAllComponents (h : ref)
| Call_configureComponents (h : ref) (info : Info)
| Call_serializeComponents (h : ref) (o : Info).

(** The store a call leaves behind, whether it returned or threw. *)
Definition world_after {A} (r : Result A) : option World :=
  match r with
  | Return _ W | Raise _ W => Some W
  | Dangling | OutOfFuel | Unrepresented => None
  end.

Definition call (LS : LiteScene) (k : Call) (W : World) : option World :=
  match k with
  | Call_addComponent h c => world_after (addComponent LS h c W)
  | Call_removeComponent h c => world_after (removeComponent h c W)
  | Call_removeAllComponents h => world_after (removeAllComponents h W)
  | Call_configureComponents h info =>
      world_after (configureComponents LS h info W)
  | Call_serializeComponents h o => world_after (serializeComponents h o W)
  end.

(** A sequence of calls, each on the store the one before left. *)
Fixpoint calls (LS : LiteScene) (ks : list Call) (W : World) : option World :=
  match ks with
  | [] => Some W
  | k :: ks' =>
      match call LS k W with
      | Some W' => calls LS ks' W'
      | None => None
      end
  end.

(** A light goes through host 1 and ends on host 2. *)
Definition demo_calls : list Call :=
  [Call_addComponent 1 (Obj 2);
   Call_removeComponent 1 (Obj 2);
   Call_addComponent 2 (Obj 2)].

(** The store [demo_calls] leaves. *)
Definition demo_world_after : World :=
  default demo_world (calls demo_LS demo_calls demo_world).

(** One call, on any host and with any argument. *)
Definition api_step (LS : LiteScene) (W W' : World) : Prop :=
  ∃ k, call LS k W = Some W'.

(** Every component of [W] is still in [W'], with the uid it had, if it had
    one. *)
Definition uid_kept (W W' : World) : Prop :=
  ∀ c C, comps W !! c = Some C →
    ∃ C', comps W' !! c = Some C' ∧ ∀ u, uid C = Some u → uid C' = Some u.

(** No collection holds a component twice, and every component a collection
    holds is in the store. *)
Definition consistent (W : World) : Prop :=
  ∀ h H l, hosts W !! h = Some H → _components H = Some l →
    NoDup l ∧ Forall (λ r, is_Some (comps W !! r)) l.

Definition consistent_kept (W W' : World) : Prop :=
  consistent W → consistent W'.

(** Every run of [m] that ends relates the store before to the store
    after. *)
Definition keeps (R : relation World) {A} (m : M A) : Prop :=
  ∀ W, match m W with
       | Return _ W' | Raise _ W' => R W W'
       | Dangling | OutOfFuel | Unrepresented => True
       end.

(** ** Notions used in the further properties *)

(** The calls [removeComponent] makes outside the file when it detaches, in
    turn, the components [l] from host [h]. *)
Definition removal_log (cs : list Component) (h : ref) (l : list ref)
  : list Event :=
  l ≫= fun c =>
    match cs !! c with
    | Some C =>
        hook_log (onRemovedFromNode C) (call_onRemovedFromNode c h)
        ++ [LEvent_unbindAll h c]
    | None => []
    end.



(** Nothing but host [h] and component [c] differs between the stores. *)
Definition only_touches (h c : ref) (W W' : World) : Prop :=
  (∀ h', h' ≠ h → hosts W' !! h' = hosts W !! h')
  ∧ (∀ c', c' ≠ c → comps W' !! c' = comps W !! c').

(** The log of [W'] continues the log of [W]. *)
Definition log_grows (W W' : World) : Prop :=
  log W `prefix_of` log W'.

(** Every call of [addComponent] on host [h], with the components [cs] in
    turn, returns its component; [W'] is the store the last call leaves. *)
Fixpoint attached_in_turn (LS : LiteScene) (h : ref) (cs : list ref)
  (W W' : World) : Prop :=
  match cs with
  | [] => W' = W
  | c :: cs' =>
      ∃ W1, addComponent LS h (Obj c) W = Return (Obj c) W1
          ∧ attached_in_turn LS h cs' W1 W'
  end.

(** The class names of the components [l], in order. *)
Definition class_names (cs : list Component) (l : list ref) : list string :=
  omap (fun c => getObjectClassName <$> cs !! c) l.

(** The least the round trip promises: serializing host [h] into an empty
    target and configuring host [h'] with the result gives [h'] a
    collection with the same class names in the same order. *)
Definition round_trip_classes (LS : LiteScene) (W : World) (h h' : ref)
  : Prop :=
  ∃ o W1, serializeComponents h {| components := None |} W = Return o W
        ∧ configureComponents LS h' o W = Return tt W1
        ∧ class_names (comps W1) (collection W1 h')
          = class_names (comps W) (collection W h).

(** A class that is not registered in [demo_LS]. *)
Definition Sprite : Class := {| class_id := 3; name := "Sprite" |}.

(** A scene: host 0 holds its transform and a light; host 1 is a fresh
    node, which holds its default transform and nothing else; host 2 holds
    a light only, its transform having been removed; host 3 holds its
    transform and a sprite. *)
Definition demo_scene : World :=
  {| hosts :=
       [ {| _components := Some [0; 1]%nat; transform := Obj 0 |};
         {| _components := Some [2]%nat; transform := Obj 2 |};
         {| _components := Some [3]%nat; transform := Undefined |};
         {| _components := Some [4; 5]%nat; transform := Obj 4 |} ];
     comps :=
       [ demo_component Transform (Obj 0) (Some "COMP-0")
           (Some demo_transform_data);
         demo_component Light (Obj 0) (Some "COMP-1") (Some demo_light_data);
         demo_component Transform (Obj 1) (Some "COMP-2")
           (Some demo_transform_data);
         demo_component Light (Obj 2) (Some "COMP-3") (Some demo_light_data);
         demo_component Transform (Obj 3) (Some "COMP-4")
           (Some demo_transform_data);
         demo_component Sprite (Obj 3) (Some "COMP-5")
           (Some demo_light_data) ];
     uid_calls := 6;
     log := [] |}.

(** A store in which three components exist and no host has had one. *)
Definition demo_initial : World :=
  {| hosts := [demo_host1; demo_host1];
     comps := [demo_new Transform demo_transform_data;
               demo_new Light demo_light_data;
               demo_new Camera demo_camera_data];
     uid_calls := 0;
     log := [] |}.

(** Three components are attached to host 0, one of them a second time, and
    the first is detached again. *)
Definition demo_initial_calls : list Call :=
  [Call_addComponent 0 (Obj 0);
   Call_addComponent 0 (Obj 1);
   Call_addComponent 0 (Obj 2);
   Call_addComponent 0 (Obj 1);
   Call_removeComponent 0 (Obj 0)].

Definition demo_initial_after : World :=
  default demo_initial (calls demo_LS demo_initial_calls demo_initial).

(** * Properties *)

(** ** [indexOf] and [splice] *)

Lemma indexOf_from_range i l x :
  indexOf_from i l x = -1 ∨ (i ≤ indexOf_from i l x < i + Z.of_nat (length l)).
Proof.
  revert i. induction l as [|y l IH]; intros i; simpl; [by left|].
  destruct (decide (y = x)); [right; lia|].
  destruct (IH (i + 1)) as [->|?]; [by left|right; lia].
Qed.

Lemma indexOf_from_notin i l x : x ∉ l → indexOf_from i l x = -1.
Proof.
  revert i. induction l as [|y l IH]; intros i Hx; simpl; [done|].
  apply not_elem_of_cons in Hx as [? ?].
  destruct (decide (y = x)); [congruence|]. by apply IH.
Qed.

Lemma indexOf_from_in i l x :
  0 ≤ i → x ∈ l → indexOf_from i l x ≠ -1.
Proof.
  revert i. induction l as [|y l IH]; intros i Hi Hx; simpl.
  - by apply elem_of_nil in Hx.
  - destruct (decide (y = x)); [lia|].
    apply elem_of_cons in Hx as [->|Hx]; [done|]. apply IH; [lia|done].
Qed.

Lemma indexOf_notin l x : x ∉ l → indexOf l x = -1.
Proof. apply indexOf_from_notin. Qed.

Lemma indexOf_in l x : x ∈ l → 0 ≤ indexOf l x < Z.of_nat (length l).
Proof.
  intros Hx. unfold indexOf.
  pose proof (indexOf_from_in 0 l x ltac:(lia) Hx).
  destruct (indexOf_from_range 0 l x); lia.
Qed.

Lemma indexOf_neg1 l x : indexOf l x = -1 ↔ x ∉ l.
Proof.
  split; [|apply indexOf_notin].
  intros Hi Hx. apply indexOf_in in Hx. lia.
Qed.

Lemma indexOf_from_shift i l x :
  indexOf_from i l x ≠ -1 → 0 ≤ i →
  indexOf_from i l x = i + indexOf_from 0 l x.
Proof.
  revert i. induction l as [|y l IH]; intros i Hne Hi; simpl in *; [done|].
  destruct (decide (y = x)); [lia|].
  rewrite (IH (i + 1)); [|done|lia].
  assert (indexOf_from (0 + 1) l x ≠ -1).
  { destruct (decide (x ∈ l)) as [Hx|Hx].
    - apply indexOf_from_in; [lia|done].
    - rewrite indexOf_from_notin in Hne; done. }
  rewrite (IH (0 + 1)); [lia|done|lia].
Qed.

(** Removing the element at the position [indexOf] found removes the first
    occurrence and nothing else. *)
Lemma splice1_indexOf_cons y l x :
  splice1 (indexOf (y :: l) x) (y :: l) =
  if decide (y = x) then l
  else if decide (x ∈ l) then y :: splice1 (indexOf l x) l else l.
Proof.
  unfold splice1, indexOf. simpl.
  destruct (decide (y = x)); [done|].
  destruct (decide (x ∈ l)) as [Hx|Hx].
  - rewrite indexOf_from_shift; [|by apply indexOf_from_in|lia].
    pose proof (indexOf_in l x Hx) as Hr. unfold indexOf in Hr.
    replace (Z.to_nat (0 + 1 + indexOf_from 0 l x))
      with (S (Z.to_nat (indexOf_from 0 l x))) by lia.
    reflexivity.
  - by rewrite indexOf_from_notin.
Qed.

Lemma filter_ne_notin (l : list ref) x :
  x ∉ l → filter (λ y, y ≠ x) l = l.
Proof.
  induction l as [|z l IH]; intros Hx; [done|].
  apply not_elem_of_cons in Hx as [? ?].
  rewrite filter_cons_True by done. f_equal. by apply IH.
Qed.

Lemma splice1_filter l x :
  NoDup l → x ∈ l → splice1 (indexOf l x) l = filter (λ y, y ≠ x) l.
Proof.
  induction l as [|y l IH]; intros Hnd Hin; [by apply elem_of_nil in Hin|].
  apply NoDup_cons in Hnd as [Hy Hnd].
  rewrite splice1_indexOf_cons.
  destruct (decide (y = x)) as [->|Hne].
  - rewrite filter_cons_False by (intros HH; apply HH; reflexivity).
    by rewrite filter_ne_notin.
  - rewrite filter_cons_True by done.
    apply elem_of_cons in Hin as [->|Hin]; [done|].
    rewrite decide_True by done. by rewrite IH.
Qed.

(** Whatever the collection holds, the other components keep their order. *)
Lemma splice1_filter_others l x :
  x ∈ l →
  filter (λ y, y ≠ x) (splice1 (indexOf l x) l) = filter (λ y, y ≠ x) l.
Proof.
  induction l as [|y l IH]; intros Hin; [by apply elem_of_nil in Hin|].
  rewrite splice1_indexOf_cons.
  destruct (decide (y = x)) as [->|Hne].
  - by rewrite filter_cons_False by (intros HH; apply HH; reflexivity).
  - apply elem_of_cons in Hin as [->|Hin]; [done|].
    rewrite decide_True by done.
    rewrite !filter_cons_True by done. by rewrite IH.
Qed.

Lemma indexOf_eqb_in l x : x ∈ l → (indexOf l x =? -1) = false.
Proof. intros Hx. apply indexOf_in in Hx. lia. Qed.

Lemma indexOf_eqb_notin l x : x ∉ l → (indexOf l x =? -1) = true.
Proof. intros Hx. rewrite indexOf_notin by done. reflexivity. Qed.

(** ** Running the monad one step at a time *)

Section Steps.

Context {B : Type}.

Lemma bind_ret {A} (v : A) (k : A → M B) W : bind (ret v) k W = k v W.
Proof. reflexivity. Qed.

Lemma bind_raise {A} e (k : A → M B) W : bind (raise e) k W = Raise e W.
Proof. reflexivity. Qed.

Lemma bind_bind {A A'} (m : M A) (k : A → M A') (k' : A' → M B) W :
  bind (bind m k) k' W = bind m (fun x => bind (k x) k') W.
Proof. unfold bind. by destruct (m W). Qed.

Lemma bind_emit e (k : unit → M B) W :
  bind (emit e) k W =
  k tt {| hosts := hosts W; comps := comps W;
          uid_calls := uid_calls W; log := log W ++ [e] |}.
Proof. reflexivity. Qed.

Lemma bind_getComp c (k : Component → M B) W C :
  comps W !! c = Some C → bind (getComp c) k W = k C W.
Proof. intros Hc. unfold bind, getComp. by rewrite Hc. Qed.

Lemma bind_getHost h (k : Host → M B) W H :
  hosts W !! h = Some H → bind (getHost h) k W = k H W.
Proof. intros Hh. unfold bind, getHost. by rewrite Hh. Qed.

Lemma bind_modComp c f (k : unit → M B) W C :
  comps W !! c = Some C →
  bind (modComp c f) k W =
  k tt {| hosts := hosts W; comps := <[c := f C]> (comps W);
          uid_calls := uid_calls W; log := log W |}.
Proof. intros Hc. unfold bind, modComp. by rewrite Hc. Qed.

Lemma bind_modHost h f (k : unit → M B) W H :
  hosts W !! h = Some H →
  bind (modHost h f) k W =
  k tt {| hosts := <[h := f H]> (hosts W); comps := comps W;
          uid_calls := uid_calls W; log := log W |}.
Proof. intros Hh. unfold bind, modHost. by rewrite Hh. Qed.

Lemma bind_new C (k : ref → M B) W :
  bind (new C) k W =
  k (length (comps W))
    {| hosts := hosts W; comps := comps W ++ [C];
       uid_calls := uid_calls W; log := log W |}.
Proof. reflexivity. Qed.

Lemma bind_generateUId LS prefix (k : string → M B) W :
  bind (LS_generateUId LS prefix) k W =
  k (generateUId LS prefix (uid_calls W))
    {| hosts := hosts W; comps := comps W;
       uid_calls := S (uid_calls W); log := log W |}.
Proof. reflexivity. Qed.

End Steps.

Lemma lookup_insert_same {A} (l : list A) i x y :
  l !! i = Some y → <[i := x]> l !! i = Some x.
Proof. intros Hi. apply list_lookup_insert_eq. by eapply lookup_lt_Some. Qed.

Ltac red_world := cbn [hosts comps uid_calls log negb default from_option id].

Ltac lookup_tac :=
  red_world;
  first [ eassumption
        | eapply lookup_insert_same; eassumption
        | rewrite list_lookup_insert_ne by congruence; eassumption ].

Ltac step :=
  first
    [ rewrite bind_ret
    | rewrite bind_raise
    | rewrite bind_emit
    | rewrite bind_new
    | rewrite bind_generateUId
    | rewrite bind_bind
    | erewrite bind_getComp by lookup_tac
    | erewrite bind_getHost by lookup_tac
    | erewrite bind_modComp by lookup_tac
    | erewrite bind_modHost by lookup_tac ];
  red_world.

(** ** [addComponent] *)

Section AddComponent.

Variable LS : LiteScene.

(** Attaching a component that is already in the collection: the throw
    comes after the component has been linked to the host. *)
Lemma addComponent_duplicate W h H l c C :
  hosts W !! h = Some H → _components H = Some l → c ∈ l →
  comps W !! c = Some C →
  addComponent LS h (Obj c) W =
  Raise (Thrown "inserting the same component twice")
    {| hosts := hosts W;
       comps := <[c := set_root (Obj h) C]> (comps W);
       uid_calls := uid_calls W;
       log := log W ++ hook_log (onAddedToNode C) (call_onAddedToNode c h) |}.
Proof.
  intros Hh Hl Hin Hc. unfold addComponent. do 2 step.
  unfold when, hook_log. destruct (onAddedToNode C); repeat step.
  all: rewrite Hl; repeat step; rewrite Hl; red_world.
  all: rewrite (indexOf_eqb_in _ _ Hin); red_world.
  all: rewrite ?app_nil_r; reflexivity.
Qed.

(** Attaching a component that is not in the collection. *)
Lemma addComponent_fresh W h H c C :
  hosts W !! h = Some H → c ∉ default [] (_components H) →
  comps W !! c = Some C →
  addComponent LS h (Obj c) W =
  Return (Obj c)
    {| hosts := <[h := set_components (default [] (_components H) ++ [c]) H]>
                  (hosts W);
       comps := <[c := attached LS (uid_calls W) h C]> (comps W);
       uid_calls := match uid C with
                    | Some _ => uid_calls W
                    | None => S (uid_calls W)
                    end;
       log := log W ++ hook_log (onAddedToNode C) (call_onAddedToNode c h) |}.
Proof.
  intros Hh Hin Hc. unfold addComponent. do 2 step.
  assert (∀ W' : World,
    hosts W' = hosts W → comps W' = <[c := set_root (Obj h) C]> (comps W) →
    uid_calls W' = uid_calls W →
    (let* H0 := getHost h in
     match _components H0 with
     | Some _ => ret ()
     | None => modHost h (set_components [])
     end ;;;
     let* H1 := getHost h in
     (let l := default [] (_components H1) in
      if negb (indexOf l c =? -1)
      then raise (Thrown "inserting the same component twice")
      else
        modHost h (set_components (l ++ [c])) ;;;
        let* C0 := getComp c in
        match uid C0 with
        | Some _ => ret ()
        | None => let* u := LS_generateUId LS "COMP-" in modComp c (set_uid u)
        end ;;; ret (Obj c))) W' =
    Return (Obj c)
    {| hosts := <[h := set_components (default [] (_components H) ++ [c]) H]>
                  (hosts W);
       comps := <[c := attached LS (uid_calls W) h C]> (comps W);
       uid_calls := match uid C with
                    | Some _ => uid_calls W
                    | None => S (uid_calls W)
                    end;
       log := log W' |}) as Hrest.
  { intros [hs cs u lg] Hhs Hcs Hu. cbn in Hhs, Hcs, Hu. subst hs cs u.
    assert (<[c := set_root (Obj h) C]> (comps W) !! c
            = Some (set_root (Obj h) C)) as Hc'
      by (by eapply lookup_insert_same).
    step.
    destruct (_components H) as [l|] eqn:Hl;
      cbn [default from_option id] in Hin; repeat step.
    - rewrite Hl. red_world. rewrite (indexOf_eqb_notin _ _ Hin). red_world.
      repeat step.
      unfold attached. cbn [uid set_root].
      destruct (uid C); repeat step; [reflexivity|].
      unfold ret. by rewrite list_insert_insert_eq.
    - cbn [_components set_components]. red_world.
      rewrite (indexOf_eqb_notin _ _ Hin). red_world.
      repeat step. rewrite list_insert_insert_eq.
      unfold attached. cbn [uid set_root].
      destruct (uid C); repeat step; [reflexivity|].
      unfold ret. by rewrite list_insert_insert_eq. }
  unfold when, hook_log. destruct (onAddedToNode C).
  - step. rewrite Hrest by done. reflexivity.
  - step. rewrite Hrest by done. red_world. by rewrite app_nil_r.
Qed.

End AddComponent.

(** ** [removeComponent] *)

(** Detaching from a host whose collection is defined. *)
Lemma removeComponent_defined W h H l c C :
  hosts W !! h = Some H → _components H = Some l → comps W !! c = Some C →
  removeComponent h (Obj c) W =
  Return tt
    {| hosts := if decide (c ∈ l)
                then <[h := set_components (splice1 (indexOf l c) l) H]>
                       (hosts W)
                else hosts W;
       comps := <[c := set_root Null C]> (comps W);
       uid_calls := uid_calls W;
       log := log W
              ++ hook_log (onRemovedFromNode C) (call_onRemovedFromNode c h)
              ++ [LEvent_unbindAll h c] |}.
Proof.
  intros Hh Hl Hc. unfold removeComponent. do 2 step.
  unfold when at 1, hook_log.
  destruct (onRemovedFromNode C); repeat step; rewrite Hl; unfold when.
  all: destruct (decide (c ∈ l)) as [Hin|Hin];
    [rewrite (indexOf_eqb_in _ _ Hin)|rewrite (indexOf_eqb_notin _ _ Hin)];
    red_world.
  all: try (unfold modHost; red_world; rewrite Hh).
  all: unfold ret; rewrite <- ?app_assoc; reflexivity.
Qed.

(** Detaching from a host that never had a component: the component is
    unlinked, then reading [indexOf] of the missing collection fails. *)
Lemma removeComponent_undefined W h H c C :
  hosts W !! h = Some H → _components H = None → comps W !! c = Some C →
  removeComponent h (Obj c) W =
  Raise (TypeError "Cannot read property 'indexOf' of undefined")
    {| hosts := hosts W;
       comps := <[c := set_root Null C]> (comps W);
       uid_calls := uid_calls W;
       log := log W
              ++ hook_log (onRemovedFromNode C) (call_onRemovedFromNode c h)
              ++ [LEvent_unbindAll h c] |}.
Proof.
  intros Hh Hl Hc. unfold removeComponent. do 2 step.
  unfold when at 1, hook_log.
  destruct (onRemovedFromNode C); repeat step; rewrite Hl; unfold raise.
  all: rewrite <- ?app_assoc; reflexivity.
Qed.

(** ** The lookups *)

Lemma first_match_found p l W :
  Forall (λ r, is_Some (comps W !! r)) l →
  Exists (λ r, ∃ C, comps W !! r = Some C ∧ p C = true) l →
  ∃ r, first_match p l W = Return (Obj r) W ∧ r ∈ l.
Proof.
  induction l as [|r l IH]; intros Hv Hex; [by apply Exists_nil in Hex|].
  apply Forall_cons in Hv as [[C HC] Hv].
  cbn [first_match]. step.
  destruct (p C) eqn:HpC.
  - exists r. split; [done|apply elem_of_cons; by left].
  - apply Exists_cons in Hex as [(C' & HC' & Hp)|Hex]; [congruence|].
    destruct (IH Hv Hex) as (r' & -> & Hin).
    exists r'. split; [done|apply elem_of_cons; by right].
Qed.

Lemma getComponents_eq W h H :
  hosts W !! h = Some H → getComponents h W = Return (_components H) W.
Proof. intros Hh. unfold getComponents. by step. Qed.

Lemma getIndexOfComponent_eq W h H l c :
  hosts W !! h = Some H → _components H = Some l →
  getIndexOfComponent h (Obj c) W = Return (indexOf l c) W.
Proof. intros Hh Hl. unfold getIndexOfComponent. step. by rewrite Hl. Qed.

Lemma hasComponent_found W h H l a c C :
  hosts W !! h = Some H → _components H = Some l →
  Forall (λ r, is_Some (comps W !! r)) l →
  c ∈ l → comps W !! c = Some C → class_test a C = true →
  hasComponent h a W = Return true W.
Proof.
  intros Hh Hl Hv Hin Hc Ht. unfold hasComponent. step. rewrite Hl.
  destruct (first_match_found (class_test a) l W Hv) as (r & Hr & _).
  { apply Exists_exists. exists c. eauto. }
  destruct a; [| |done]; unfold bind; rewrite Hr; reflexivity.
Qed.

Lemma nth_ref_out_of_range l index :
  index < 0 ∨ Z.of_nat (length l) ≤ index → nth_ref l index = Undefined.
Proof.
  intros Hi. unfold nth_ref. destruct (index <? 0) eqn:Hneg; [done|].
  rewrite lookup_ge_None_2; [done|lia].
Qed.

(** ** Attaching *)

(** C3. Calling [addComponent] with a component that is already in the
    collection of the host raises the exception of line 117, and the
    collection read afterwards is the one before the call: the duplicate is
    not appended and the length does not change. *)
Theorem addComponent_twice_fails LS W h H l c C :
  hosts W !! h = Some H → _components H = Some l → c ∈ l →
  comps W !! c = Some C →
  ∃ W', addComponent LS h (Obj c) W
        = Raise (Thrown "inserting the same component twice") W'
      ∧ getComponents h W' = Return (Some l) W'
      ∧ length (collection W' h) = length (collection W h).
Proof.
  intros Hh Hl Hin Hc. eexists. split.
  - by eapply addComponent_duplicate.
  - unfold collection. red_world. rewrite Hh, Hl. split; [|done].
    erewrite getComponents_eq by (red_world; done). by rewrite Hl.
Qed.

(** C10. The failure of a duplicate [addComponent] is not atomic: in the
    store the exception leaves behind, the component points back to this
    host and its [onAddedToNode] hook, if it has one, has been called; the
    hosts, and so the collection, and the uid of the component are as
    before. *)
Theorem addComponent_twice_not_atomic LS W h H l c C :
  hosts W !! h = Some H → _components H = Some l → c ∈ l →
  comps W !! c = Some C →
  ∃ W' C', addComponent LS h (Obj c) W
           = Raise (Thrown "inserting the same component twice") W'
         ∧ comps W' !! c = Some C'
         ∧ _root C' = Obj h
         ∧ log W' = log W ++ hook_log (onAddedToNode C) (call_onAddedToNode c h)
         ∧ hosts W' = hosts W
         ∧ uid C' = uid C
         ∧ uid_calls W' = uid_calls W.
Proof.
  intros Hh Hl Hin Hc. eexists _, _. split; [by eapply addComponent_duplicate|].
  red_world. split; [by eapply lookup_insert_same|]. done.
Qed.

(** C4. Calling [addComponent] with a component that is not in the
    collection returns that component; afterwards the component points back
    to the host, the collection is the old one with the component appended,
    [getIndexOfComponent] finds it and [hasComponent] answers true for its
    class, given as the class or by name. *)
Theorem addComponent_attaches LS W h H c C :
  hosts W !! h = Some H → comps W !! c = Some C →
  c ∉ default [] (_components H) →
  Forall (λ r, is_Some (comps W !! r)) (default [] (_components H)) →
  ∃ W' C' i,
    addComponent LS h (Obj c) W = Return (Obj c) W'
    ∧ comps W' !! c = Some C' ∧ _root C' = Obj h
    ∧ constructor C' = constructor C
    ∧ getComponents h W'
      = Return (Some (default [] (_components H) ++ [c])) W'
    ∧ getIndexOfComponent h (Obj c) W' = Return i W' ∧ 0 ≤ i
    ∧ hasComponent h (ByClass (constructor C)) W' = Return true W'
    ∧ hasComponent h (ByName (name (constructor C))) W' = Return true W'.
Proof.
  intros Hh Hc Hin Hv.
  set (l := default [] (_components H)) in *.
  eexists _, (attached LS (uid_calls W) h C), (indexOf (l ++ [c]) c).
  split; [by eapply addComponent_fresh|].
  assert (Hh' : <[h := set_components (l ++ [c]) H]> (hosts W) !! h
                = Some (set_components (l ++ [c]) H))
    by (by eapply lookup_insert_same).
  assert (Hc' : <[c := attached LS (uid_calls W) h C]> (comps W) !! c
                = Some (attached LS (uid_calls W) h C))
    by (by eapply lookup_insert_same).
  assert (Hin' : c ∈ l ++ [c]) by (apply elem_of_app; right; by left).
  assert (Hv' : Forall (λ r, is_Some
                  (<[c := attached LS (uid_calls W) h C]> (comps W) !! r))
                  (l ++ [c])).
  { apply Forall_app. split.
    - eapply Forall_impl; [exact Hv|]. intros r [Cr Hr].
      destruct (decide (r = c)) as [->|Hne]; [by eexists|].
      rewrite list_lookup_insert_ne by done. by eexists.
    - by repeat constructor. }
  assert (Hk : constructor (attached LS (uid_calls W) h C) = constructor C)
    by (unfold attached; by destruct (uid C)).
  split; [done|]. split; [unfold attached; by destruct (uid C)|].
  split; [done|].
  split; [by erewrite getComponents_eq by (red_world; done)|].
  split; [by erewrite getIndexOfComponent_eq by (red_world; done)|].
  split; [apply indexOf_in in Hin'; lia|].
  split; eapply hasComponent_found; red_world; try done;
    cbn [class_test]; rewrite Hk; by apply bool_decide_eq_true.
Qed.

(** ** Detaching *)

(** What [removeComponent] leaves of a collection [l]. *)
Lemma removeComponent_collection W h H l c C :
  hosts W !! h = Some H → _components H = Some l → comps W !! c = Some C →
  ∃ W' l', removeComponent h (Obj c) W = Return tt W'
         ∧ comps W' !! c = Some (set_root Null C)
         ∧ hosts W' !! h = Some (set_components l' H)
         ∧ l' = (if decide (c ∈ l) then splice1 (indexOf l c) l else l).
Proof.
  intros Hh Hl Hc. eexists _, _.
  split; [by eapply removeComponent_defined|]. red_world.
  split; [by eapply lookup_insert_same|]. split; [|done].
  destruct (decide (c ∈ l)); [by eapply lookup_insert_same|].
  rewrite Hh. f_equal. destruct H. cbn in Hl. by subst.
Qed.

(** C5. On a host whose collection is defined, [removeComponent] with a
    component returns normally; afterwards the host reference of the
    component is [null]; a component that was not in the collection leaves
    the collection as it was; in every case the other components are the
    old ones in their old order. [getIndexOfComponent] then answers -1,
    given that the collection held no component twice, as is the case of
    every collection that the calls of the file build
    ([api_run_consistent]). *)
Theorem removeComponent_detaches W h H l c C :
  hosts W !! h = Some H → _components H = Some l →
  comps W !! c = Some C →
  ∃ W' C' l',
    removeComponent h (Obj c) W = Return tt W'
    ∧ comps W' !! c = Some C' ∧ _root C' = Null
    ∧ getComponents h W' = Return (Some l') W'
    ∧ (c ∉ l → l' = l)
    ∧ filter (λ y, y ≠ c) l' = filter (λ y, y ≠ c) l
    ∧ (NoDup l → l' = filter (λ y, y ≠ c) l
                 ∧ getIndexOfComponent h (Obj c) W' = Return (-1) W').
Proof.
  intros Hh Hl Hc.
  destruct (removeComponent_collection W h H l c C Hh Hl Hc)
    as (W' & l' & Hrun & Hc' & Hh' & Hl').
  exists W', (set_root Null C), l'.
  split; [done|]. split; [done|]. split; [done|].
  split; [by erewrite getComponents_eq by done|].
  split; [intros Hin; by rewrite decide_False in Hl' by done|].
  split.
  - rewrite Hl'. destruct (decide (c ∈ l)); [|done].
    by apply splice1_filter_others.
  - intros Hnd.
    assert (l' = filter (λ y, y ≠ c) l) as Hfilter.
    { rewrite Hl'. destruct (decide (c ∈ l)); [by apply splice1_filter|].
      by rewrite filter_ne_notin. }
    split; [done|].
    erewrite getIndexOfComponent_eq by done.
    rewrite indexOf_notin; [done|]. rewrite Hfilter.
    intros [Hne _]%list_elem_of_filter. by apply Hne.
Qed.

(** C9. On a host whose collection is defined, [removeComponent] with a
    component that is not in the collection still unlinks it: its host
    reference becomes [null], its [onRemovedFromNode] hook, if it has one, is
    called, and [LEvent.unbindAll] is called for the host and the component;
    the hosts, and so the collection, are untouched. *)
Theorem removeComponent_absent_side_effects W h H l c C :
  hosts W !! h = Some H → _components H = Some l → c ∉ l →
  comps W !! c = Some C →
  ∃ W', removeComponent h (Obj c) W = Return tt W'
      ∧ comps W' = <[c := set_root Null C]> (comps W)
      ∧ _root (set_root Null C) = Null
      ∧ log W' = log W
                 ++ hook_log (onRemovedFromNode C) (call_onRemovedFromNode c h)
                 ++ [LEvent_unbindAll h c]
      ∧ hosts W' = hosts W
      ∧ getComponents h W' = Return (Some l) W'.
Proof.
  intros Hh Hl Hin Hc. eexists. split; [by eapply removeComponent_defined|].
  red_world. rewrite decide_False by done.
  repeat (split; [done|]).
  erewrite getComponents_eq by (red_world; done). by rewrite Hl.
Qed.

(** ** Reading by position *)

(** C7. [getComponentByIndex] with an index outside the collection, and with
    any index when the collection was never defined, returns normally and
    the result is not an object ([undefined], or [null] for the missing
    collection). *)
Theorem getComponentByIndex_out_of_range W h H index :
  hosts W !! h = Some H →
  (∀ l, _components H = Some l → index < 0 ∨ Z.of_nat (length l) ≤ index) →
  ∃ v, getComponentByIndex h index W = Return v W ∧ is_obj v = false.
Proof.
  intros Hh Hi. unfold getComponentByIndex. step.
  destruct (_components H) as [l|] eqn:Hl.
  - exists Undefined. rewrite nth_ref_out_of_range by (by apply Hi). done.
  - by exists Null.
Qed.

(** ** A host that never had a component *)

Lemma removeAllComponents_loop_undefined fuel W h H :
  hosts W !! h = Some H → _components H = None →
  removeAllComponents_loop fuel h W =
  Raise (TypeError "Cannot read property 'length' of undefined") W.
Proof. intros Hh Hl. destruct fuel; cbn [removeAllComponents_loop]; step; by rewrite Hl. Qed.

(** C8. On a host whose collection was never defined, [removeComponent] with
    a component and [removeAllComponents] raise a [TypeError] for reading a
    property of the missing collection, the former after it has unlinked the
    component; [getIndexOfComponent], [getComponent], [hasComponent] and
    [getComponentByUId] return -1, [null], [false] and [null], for every
    argument, and leave the store alone. *)
Theorem uninitialized_collection W h H c C :
  hosts W !! h = Some H → _components H = None → comps W !! c = Some C →
  (∃ msg W', removeComponent h (Obj c) W = Raise (TypeError msg) W')
  ∧ (∃ msg, removeAllComponents h W = Raise (TypeError msg) W)
  ∧ (∀ x, getIndexOfComponent h x W = Return (-1) W)
  ∧ (∀ a, getComponent h a W = Return Null W)
  ∧ (∀ a, hasComponent h a W = Return false W)
  ∧ (∀ u, getComponentByUId h u W = Return Null W).
Proof.
  intros Hh Hl Hc. split; [|split; [|repeat split]].
  - eexists _, _. by eapply removeComponent_undefined.
  - eexists. unfold removeAllComponents.
    by eapply removeAllComponents_loop_undefined.
  - intros x. unfold getIndexOfComponent. step. by rewrite Hl.
  - intros a. unfold getComponent. step. by rewrite Hl.
  - intros a. unfold hasComponent. step. by rewrite Hl.
  - intros u. unfold getComponentByUId. step. by rewrite Hl.
Qed.

(** ** The uid of a component *)

#[local] Instance uid_kept_preorder : PreOrder uid_kept.
Proof.
  split.
  - intros W c C Hc. by exists C.
  - intros W1 W2 W3 H12 H23 c C Hc.
    destruct (H12 c C Hc) as (C2 & Hc2 & Hu2).
    destruct (H23 c C2 Hc2) as (C3 & Hc3 & Hu3).
    exists C3. split; [done|]. intros u Hu. by apply Hu3, Hu2.
Qed.

Lemma keeps_after {A} R (m : M A) W W' :
  keeps R m → world_after (m W) = Some W' → R W W'.
Proof.
  intros Hm Hw. specialize (Hm W).
  destruct (m W); cbn in Hw; by simplify_eq.
Qed.

Section Keeps.

Context (R : relation World) `{!PreOrder R}.

Lemma keeps_ret {A} (v : A) : keeps R (ret v).
Proof. intros W. unfold ret. reflexivity. Qed.

Lemma keeps_raise {A} e : keeps R (@raise A e).
Proof. intros W. unfold raise. reflexivity. Qed.

Lemma keeps_bind {A B} (m : M A) (k : A → M B) :
  keeps R m → (∀ v, keeps R (k v)) → keeps R (bind m k).
Proof.
  intros Hm Hk W. unfold bind. specialize (Hm W).
  destruct (m W) as [v W1|e W1| | |]; try done.
  specialize (Hk v W1). destruct (k v W1); try done; by etrans.
Qed.

Lemma keeps_when b m : keeps R m → keeps R (when b m).
Proof. intros Hm. destruct b; [done|apply keeps_ret]. Qed.

Lemma keeps_getComp c : keeps R (getComp c).
Proof. intros W. unfold getComp. by destruct (comps W !! c). Qed.

Lemma keeps_getHost h : keeps R (getHost h).
Proof. intros W. unfold getHost. by destruct (hosts W !! h). Qed.

End Keeps.

Lemma uid_kept_same_comps W W' : comps W' = comps W → uid_kept W W'.
Proof. intros Heq c C Hc. exists C. by rewrite Heq. Qed.

Lemma uid_kept_insert W W' c C f :
  comps W !! c = Some C → comps W' = <[c := f C]> (comps W) →
  (∀ u, uid C = Some u → uid (f C) = Some u) → uid_kept W W'.
Proof.
  intros Hc Heq Hf r Cr Hr. rewrite Heq.
  destruct (decide (r = c)) as [->|Hne].
  - exists (f C). split; [by eapply lookup_insert_same|].
    intros u Hu. apply Hf. congruence.
  - exists Cr. by rewrite list_lookup_insert_ne.
Qed.

Lemma keeps_emit e : keeps uid_kept (emit e).
Proof. intros W. by apply uid_kept_same_comps. Qed.

Lemma keeps_modHost h f : keeps uid_kept (modHost h f).
Proof.
  intros W. unfold modHost. destruct (hosts W !! h); [|done].
  by apply uid_kept_same_comps.
Qed.

Lemma keeps_set_root c x : keeps uid_kept (modComp c (set_root x)).
Proof.
  intros W. unfold modComp. destruct (comps W !! c) as [C|] eqn:Hc; [|done].
  by eapply uid_kept_insert.
Qed.

Lemma keeps_new C : keeps uid_kept (new C).
Proof.
  intros W c Cc Hc. exists Cc. split; [|done].
  cbn. by apply lookup_app_l_Some.
Qed.

(** Lines 119-120: a uid is defined only on a component that has none. *)
Lemma keeps_define_uid LS c :
  keeps uid_kept
    (let* C := getComp c in
     match uid C with
     | Some _ => ret ()
     | None => let* u := LS_generateUId LS "COMP-" in modComp c (set_uid u)
     end ;;; ret (Obj c)).
Proof.
  intros W. unfold bind at 1, getComp.
  destruct (comps W !! c) as [C|] eqn:Hc; [|done].
  destruct (uid C) eqn:Hu; repeat step; unfold ret; [reflexivity|].
  eapply uid_kept_insert; [done|done|]. intros u. congruence.
Qed.

Ltac keeps_tac :=
  repeat match goal with
    | |- keeps _ (ret _) => apply keeps_ret
    | |- keeps _ (raise _) => apply keeps_raise
    | |- keeps _ (emit _) => apply keeps_emit
    | |- keeps _ (modHost _ _) => apply keeps_modHost
    | |- keeps _ (modComp _ (set_root _)) => apply keeps_set_root
    | |- keeps _ (new _) => apply keeps_new
    | |- keeps _ (getComp _) => apply (keeps_getComp uid_kept)
    | |- keeps _ (getHost _) => apply (keeps_getHost uid_kept)
    | |- keeps _ (when _ _) => apply (keeps_when uid_kept)
    | |- keeps _ (bind (getComp _) (fun C => bind (match uid C with _ => _ end) _)) =>
        apply keeps_define_uid
    | |- keeps _ (bind _ _) => apply (keeps_bind uid_kept); [|intros ?]
    | |- keeps _ (match ?x with _ => _ end) => destruct x
    | |- PreOrder uid_kept => apply uid_kept_preorder
    end.

Lemma keeps_addComponent LS h x : keeps uid_kept (addComponent LS h x).
Proof. unfold addComponent. keeps_tac. Qed.

Lemma keeps_removeComponent h x : keeps uid_kept (removeComponent h x).
Proof. unfold removeComponent. keeps_tac. Qed.

Lemma keeps_removeAllComponents_loop fuel h :
  keeps uid_kept (removeAllComponents_loop fuel h).
Proof.
  induction fuel as [|fuel IH]; cbn [removeAllComponents_loop]; keeps_tac.
  - done.
  - apply keeps_removeComponent.
  - apply IH.
Qed.

Lemma keeps_removeAllComponents h : keeps uid_kept (removeAllComponents h).
Proof. intros W. apply keeps_removeAllComponents_loop. Qed.

Lemma keeps_configure_loop LS h entries :
  ∀ i, keeps uid_kept (configure_loop LS h i entries).
Proof.
  induction entries as [|[comp_class data] rest IH]; intros i;
    cbn [configure_loop]; keeps_tac; try apply IH.
  all: first [apply keeps_addComponent | by intros ?].
Qed.

Lemma keeps_configureComponents LS h info :
  keeps uid_kept (configureComponents LS h info).
Proof. unfold configureComponents. keeps_tac. apply keeps_configure_loop. Qed.

Lemma keeps_serialize_loop l :
  ∀ acc, keeps uid_kept (serialize_loop l acc).
Proof.
  induction l as [|c l IH]; intros acc; cbn [serialize_loop]; keeps_tac;
    apply IH.
Qed.

Lemma keeps_serializeComponents h o :
  keeps uid_kept (serializeComponents h o).
Proof. unfold serializeComponents. keeps_tac. apply keeps_serialize_loop. Qed.

Lemma api_step_uid_kept LS W W' : api_step LS W W' → uid_kept W W'.
Proof.
  intros [k Hk]. destruct k; cbn [call] in Hk.
  - eapply (keeps_after _ (addComponent LS h component)); [|done].
    apply keeps_addComponent.
  - eapply (keeps_after _ (removeComponent h component)); [|done].
    apply keeps_removeComponent.
  - eapply (keeps_after _ (removeAllComponents h)); [|done].
    apply keeps_removeAllComponents.
  - eapply (keeps_after _ (configureComponents LS h info)); [|done].
    apply keeps_configureComponents.
  - eapply (keeps_after _ (serializeComponents h o)); [|done].
    apply keeps_serializeComponents.
Qed.

Lemma api_run_uid_kept LS W W' : rtc (api_step LS) W W' → uid_kept W W'.
Proof.
  induction 1 as [W|W1 W2 W3 Hstep _ IH]; [reflexivity|].
  etrans; [by eapply api_step_uid_kept|done].
Qed.

(** C6. A component keeps its uid through every sequence of calls: whatever
    calls are made, on whatever hosts, a component that had a uid still has
    that uid. A uid is defined by a successful [addComponent] on a component
    that has none, and the same call leaves an existing uid as it is. *)
Theorem uid_assigned_once LS W W1 c C :
  comps W !! c = Some C → rtc (api_step LS) W W1 →
  ∃ C1, comps W1 !! c = Some C1
      ∧ (∀ u, uid C = Some u → uid C1 = Some u)
      ∧ (∀ h H, hosts W1 !! h = Some H → c ∉ default [] (_components H) →
           ∃ W2 C2, addComponent LS h (Obj c) W1 = Return (Obj c) W2
                  ∧ comps W2 !! c = Some C2
                  ∧ uid C2 = Some (default (generateUId LS "COMP-" (uid_calls W1))
                                           (uid C1))).
Proof.
  intros Hc Hrun.
  destruct (api_run_uid_kept LS W W1 Hrun c C Hc) as (C1 & Hc1 & Hu1).
  exists C1. split; [done|]. split; [done|].
  intros h H Hh Hin. eexists _, _.
  split; [by eapply addComponent_fresh|]. red_world.
  split; [by eapply lookup_insert_same|].
  unfold attached. destruct (uid C1) eqn:Hu; cbn; by rewrite ?Hu.
Qed.

Lemma calls_run LS ks W W' :
  calls LS ks W = Some W' → rtc (api_step LS) W W'.
Proof.
  revert W. induction ks as [|k ks IH]; intros W Hks; cbn in Hks.
  - by simplify_eq.
  - destruct (call LS k W) as [W1|] eqn:Hk; [|done].
    eapply rtc_l; [by exists k|by apply IH].
Qed.

(** A light is attached to host 1, detached, and attached to host 2: it gets
    its uid from the first call and host 2 gets it as its last component. *)
Example demo_run :
  (fun W => (uid <$> comps W !! 2%nat, collection W 2, uid_calls W))
  <$> calls demo_LS demo_calls demo_world
  = Some (Some (Some "COMP-5"), [3; 4; 2]%nat, 6%nat).
Proof. vm_compute. reflexivity. Qed.

(** ** The invariant of the collections *)

#[local] Instance consistent_kept_preorder : PreOrder consistent_kept.
Proof. split; unfold consistent_kept; [by intros W|]. intros W1 W2 W3. tauto. Qed.

Lemma consistent_same W W' :
  hosts W' = hosts W → length (comps W') = length (comps W) →
  consistent_kept W W'.
Proof.
  intros Hhs Hcs Hcon h H l Hh Hl. rewrite Hhs in Hh.
  destruct (Hcon h H l Hh Hl) as [Hnd Hv]. split; [done|].
  eapply Forall_impl; [exact Hv|]. intros r Hr.
  apply lookup_lt_is_Some. apply lookup_lt_is_Some in Hr. lia.
Qed.

Lemma consistent_set_components W W' h H l :
  hosts W !! h = Some H → hosts W' = <[h := set_components l H]> (hosts W) →
  length (comps W') = length (comps W) →
  (consistent W → NoDup l ∧ Forall (λ r, is_Some (comps W !! r)) l) →
  consistent_kept W W'.
Proof.
  intros Hh Hhs Hcs Hl Hcon h' H' l' Hh' Hl'. rewrite Hhs in Hh'.
  assert (NoDup l' ∧ Forall (λ r, is_Some (comps W !! r)) l') as [Hnd Hv].
  { destruct (decide (h' = h)) as [->|Hne].
    - erewrite lookup_insert_same in Hh' by done. simplify_eq.
      cbn in Hl'. simplify_eq. by apply Hl.
    - rewrite list_lookup_insert_ne in Hh' by done. by eapply Hcon. }
  split; [done|]. eapply Forall_impl; [exact Hv|]. intros r Hr.
  apply lookup_lt_is_Some. apply lookup_lt_is_Some in Hr. lia.
Qed.

Lemma consistent_emit e : keeps consistent_kept (emit e).
Proof. intros W. by apply consistent_same. Qed.

Lemma consistent_modComp c f : keeps consistent_kept (modComp c f).
Proof.
  intros W. unfold modComp. destruct (comps W !! c); [|done].
  apply consistent_same; [done|]. cbn. apply length_insert.
Qed.

Lemma consistent_new C : keeps consistent_kept (new C).
Proof.
  intros W Hcon h H l Hh Hl. destruct (Hcon h H l Hh Hl) as [Hnd Hv].
  split; [done|]. eapply Forall_impl; [exact Hv|]. intros r Hr. cbn.
  apply lookup_lt_is_Some. apply lookup_lt_is_Some in Hr.
  rewrite length_app. lia.
Qed.

Lemma consistent_generateUId LS prefix :
  keeps consistent_kept (LS_generateUId LS prefix).
Proof. intros W. by apply consistent_same. Qed.

(** Line 115. *)
Lemma consistent_define_components h :
  keeps consistent_kept (modHost h (set_components [])).
Proof.
  intros W. unfold modHost. destruct (hosts W !! h) as [H|] eqn:Hh; [|done].
  eapply consistent_set_components; [done..|].
  intros _. split; constructor.
Qed.

(** Lines 116-121: the component is pushed only when [indexOf] did not find
    it, and the read of its uid that follows shows it is in the store. *)
Lemma consistent_push h c {A} (k : Component → M A) :
  (∀ C, keeps consistent_kept (k C)) →
  keeps consistent_kept
    (let* H := getHost h in
     let l := default [] (_components H) in
     if negb (indexOf l c =? -1)
     then raise (Thrown "inserting the same component twice")
     else modHost h (set_components (l ++ [c])) ;;; let* C := getComp c in k C).
Proof.
  intros Hk W. unfold bind at 1, getHost.
  destruct (hosts W !! h) as [H|] eqn:Hh; [|done].
  cbn zeta. destruct (indexOf _ c =? -1) eqn:Hi; cbn [negb];
    [|unfold raise; reflexivity].
  apply Z.eqb_eq, indexOf_neg1 in Hi. step. unfold bind, getComp. red_world.
  destruct (comps W !! c) as [C|] eqn:Hc; [|done].
  match goal with |- context [k C ?X] => set (W1 := X) end.
  assert (consistent_kept W W1) as H1.
  { eapply consistent_set_components; [done..|]. intros Hcon.
    assert (NoDup (default [] (_components H))
            ∧ Forall (λ r, is_Some (comps W !! r))
                (default [] (_components H))) as [Hnd Hv].
    { destruct (_components H) as [l|] eqn:Hl; [by eapply Hcon|].
      split; constructor. }
    split.
    - apply NoDup_app. split; [done|]. split; [|apply NoDup_singleton].
      intros x Hx ->%list_elem_of_singleton. done.
    - apply Forall_app. split; [done|]. by repeat constructor. }
  specialize (Hk C W1). destruct (k C W1); try done; by etrans.
Qed.

(** Lines 143-144: what [splice] leaves is part of what was there. *)
Lemma consistent_splice h c :
  keeps consistent_kept
    (let* H := getHost h in
     match _components H with
     | None => raise (TypeError "Cannot read property 'indexOf' of undefined")
     | Some l =>
         let pos := indexOf l c in
         when (negb (pos =? -1)) (modHost h (set_components (splice1 pos l)))
     end).
Proof.
  intros W. unfold bind at 1, getHost.
  destruct (hosts W !! h) as [H|] eqn:Hh; [|done].
  destruct (_components H) as [l|] eqn:Hl; [|unfold raise; reflexivity].
  cbn zeta. destruct (indexOf l c =? -1); cbn [negb when];
    [unfold ret; reflexivity|].
  unfold modHost. rewrite Hh.
  eapply consistent_set_components; [done..|]. intros Hcon.
  destruct (Hcon h H l Hh Hl) as [Hnd Hv].
  assert (splice1 (indexOf l c) l `sublist_of` l) as Hsub
    by apply sublist_delete.
  split; [by eapply sublist_NoDup|by apply Forall_delete].
Qed.

Ltac consistent_tac :=
  repeat match goal with
    | |- keeps _ (ret _) => apply keeps_ret
    | |- keeps _ (raise _) => apply keeps_raise
    | |- keeps _ (emit _) => apply consistent_emit
    | |- keeps _ (modComp _ _) => apply consistent_modComp
    | |- keeps _ (modHost _ (set_components [])) =>
        apply consistent_define_components
    | |- keeps _ (new _) => apply consistent_new
    | |- keeps _ (LS_generateUId _ _) => apply consistent_generateUId
    | |- keeps _ (getComp _) => apply (keeps_getComp consistent_kept)
    | |- keeps _ (getHost _) => apply (keeps_getHost consistent_kept)
    | |- keeps _ (when _ _) => apply (keeps_when consistent_kept)
    | |- keeps _ (bind (getHost _) (fun H => if _ then _ else _)) =>
        apply consistent_push; intros ?
    | |- keeps _ (bind (getHost _) (fun H => match _components H with _ => _ end)) =>
        apply consistent_splice
    | |- keeps _ (bind _ _) => apply (keeps_bind consistent_kept); [|intros ?]
    | |- keeps _ (match ?x with _ => _ end) => destruct x
    | |- PreOrder consistent_kept => apply consistent_kept_preorder
    end.

Lemma consistent_addComponent LS h x :
  keeps consistent_kept (addComponent LS h x).
Proof. unfold addComponent. consistent_tac. Qed.

Lemma consistent_removeComponent h x :
  keeps consistent_kept (removeComponent h x).
Proof. unfold removeComponent. consistent_tac. Qed.

Lemma consistent_removeAllComponents_loop fuel h :
  keeps consistent_kept (removeAllComponents_loop fuel h).
Proof.
  induction fuel as [|fuel IH]; cbn [removeAllComponents_loop];
    consistent_tac.
  - done.
  - apply consistent_removeComponent.
  - apply IH.
Qed.

Lemma consistent_configure_loop LS h entries :
  ∀ i, keeps consistent_kept (configure_loop LS h i entries).
Proof.
  induction entries as [|[comp_class data] rest IH]; intros i;
    cbn [configure_loop]; consistent_tac; try apply IH.
  all: first [apply consistent_addComponent | by intros ?].
Qed.

Lemma consistent_serialize_loop l :
  ∀ acc, keeps consistent_kept (serialize_loop l acc).
Proof.
  induction l as [|c l IH]; intros acc; cbn [serialize_loop];
    consistent_tac; apply IH.
Qed.

(** Every call keeps the invariant; it holds of every store the calls build
    from one in which no host has a collection yet. *)
Lemma api_step_consistent LS W W' :
  api_step LS W W' → consistent W → consistent W'.
Proof.
  intros [k Hk]. change (consistent_kept W W').
  destruct k; cbn [call] in Hk.
  - eapply (keeps_after _ (addComponent LS h component)); [|done].
    apply consistent_addComponent.
  - eapply (keeps_after _ (removeComponent h component)); [|done].
    apply consistent_removeComponent.
  - eapply (keeps_after _ (removeAllComponents h)); [|done].
    intros W0. apply consistent_removeAllComponents_loop.
  - eapply (keeps_after _ (configureComponents LS h info)); [|done].
    unfold configureComponents. consistent_tac.
    apply consistent_configure_loop.
  - eapply (keeps_after _ (serializeComponents h o)); [|done].
    unfold serializeComponents. consistent_tac.
    apply consistent_serialize_loop.
Qed.

Lemma api_run_consistent LS W W' :
  rtc (api_step LS) W W' → consistent W → consistent W'.
Proof.
  induction 1 as [W|W1 W2 W3 Hstep _ IH]; [done|].
  intros Hcon. by eapply IH, api_step_consistent.
Qed.

Lemma consistent_initial W :
  Forall (λ H, _components H = None) (hosts W) → consistent W.
Proof.
  intros Hall h H l Hh Hl.
  eapply Forall_lookup_1 in Hall; [|done]. congruence.
Qed.

(** ** [removeAllComponents] *)

Lemma indexOf_head c l : indexOf (c :: l) c = 0.
Proof. unfold indexOf. cbn. by rewrite decide_True. Qed.

(** The loop ends within as many runs of its body as the collection has
    components, and leaves the collection empty. *)
Lemma removeAllComponents_loop_empties h l : ∀ fuel W H,
  hosts W !! h = Some H → _components H = Some l →
  Forall (λ r, is_Some (comps W !! r)) l →
  (length l ≤ fuel)%nat →
  ∃ W', removeAllComponents_loop fuel h W = Return tt W'
      ∧ getComponents h W' = Return (Some []) W'.
Proof.
  induction l as [|c l IH]; intros fuel W H Hh Hl Hv Hfuel.
  - exists W. split.
    + destruct fuel; cbn [removeAllComponents_loop]; step; by rewrite Hl.
    + erewrite getComponents_eq by done. by rewrite Hl.
  - destruct fuel as [|fuel]; [cbn in Hfuel; lia|].
    apply Forall_cons in Hv as [[C HC] Hv].
    cbn [removeAllComponents_loop]. step. rewrite Hl.
    unfold bind at 1. erewrite removeComponent_defined by done.
    rewrite decide_True by (apply elem_of_cons; by left).
    rewrite indexOf_head. change (splice1 0 (c :: l)) with l.
    eapply IH.
    + red_world. by eapply lookup_insert_same.
    + done.
    + eapply Forall_impl; [exact Hv|]. intros r Hr. red_world.
      apply lookup_lt_is_Some. rewrite length_insert.
      by apply lookup_lt_is_Some.
    + cbn in Hfuel. lia.
Qed.

(** The fuel [removeAllComponents] starts with never runs out. *)
Lemma removeAllComponents_loop_fuel h l : ∀ fuel W H,
  hosts W !! h = Some H → _components H = Some l → (length l ≤ fuel)%nat →
  removeAllComponents_loop fuel h W ≠ OutOfFuel.
Proof.
  induction l as [|c l IH]; intros fuel W H Hh Hl Hfuel.
  - destruct fuel; cbn [removeAllComponents_loop]; step; by rewrite Hl.
  - destruct fuel as [|fuel]; [cbn in Hfuel; lia|].
    cbn [removeAllComponents_loop]. step. rewrite Hl. unfold bind at 1.
    destruct (comps W !! c) as [C|] eqn:Hc.
    + erewrite removeComponent_defined by done.
      rewrite decide_True by (apply elem_of_cons; by left).
      rewrite indexOf_head. change (splice1 0 (c :: l)) with l.
      eapply IH; [red_world; by eapply lookup_insert_same|done|].
      cbn in Hfuel. lia.
    + unfold removeComponent, bind, getComp. by rewrite Hc.
Qed.

Lemma removeAllComponents_fuel W h : removeAllComponents h W ≠ OutOfFuel.
Proof.
  unfold removeAllComponents.
  destruct (hosts W !! h) as [H|] eqn:Hh.
  - destruct (_components H) as [l|] eqn:Hl.
    + by eapply removeAllComponents_loop_fuel.
    + by erewrite removeAllComponents_loop_undefined.
  - cbn [removeAllComponents_loop]. unfold bind, getHost. by rewrite Hh.
Qed.

Lemma removeAllComponents_terminates W h H l :
  hosts W !! h = Some H → _components H = Some l →
  Forall (λ r, is_Some (comps W !! r)) l →
  ∃ W', removeAllComponents h W = Return tt W'
      ∧ getComponents h W' = Return (Some []) W'.
Proof.
  intros Hh Hl Hv. unfold removeAllComponents. rewrite Hh, Hl.
  by eapply removeAllComponents_loop_empties.
Qed.

(** ** Serializing *)

Lemma pairs_of_app cs l1 l2 :
  pairs_of cs (l1 ++ l2) = pairs_of cs l1 ++ pairs_of cs l2.
Proof. apply omap_app. Qed.

Lemma pairs_of_ext cs cs' l :
  Forall (λ r, cs' !! r = cs !! r) l → pairs_of cs' l = pairs_of cs l.
Proof.
  induction 1 as [|r l Hr _ IH]; [done|].
  unfold pairs_of in *. cbn [omap list_omap]. by rewrite Hr, IH.
Qed.

(** The loop pushes, after what the list already holds, the pairs of the
    specification. *)
Lemma serialize_loop_eq l : ∀ acc W,
  Forall (λ r, is_Some (comps W !! r)) l →
  serialize_loop l acc W = Return (acc ++ pairs_of (comps W) l) W.
Proof.
  induction l as [|c l IH]; intros acc W Hv.
  - cbn. unfold ret. by rewrite app_nil_r.
  - apply Forall_cons in Hv as [[C HC] Hv].
    cbn [serialize_loop]. step.
    unfold pairs_of. cbn [omap list_omap]. rewrite HC. cbn [mbind option_bind].
    destruct (serialize C) as [obj|]; cbn [mbind option_bind].
    + rewrite IH by done. by rewrite <- app_assoc.
    + by rewrite IH.
Qed.

Lemma serializeComponents_eq W h H o :
  hosts W !! h = Some H →
  Forall (λ r, is_Some (comps W !! r)) (default [] (_components H)) →
  serializeComponents h o W =
  Return match _components H with
         | Some l => {| components := Some (pairs_of (comps W) l) |}
         | None => o
         end W.
Proof.
  intros Hh Hv. unfold serializeComponents. step.
  destruct (_components H) as [l|]; [|done].
  unfold bind. by rewrite serialize_loop_eq.
Qed.

(** C2, as the code has it. When the collection of the host is defined,
    [serializeComponents] sets [target.components] to a new list that holds
    one pair [class_name, data] for each component that exposes [serialize],
    in the order of the collection, the components without it skipped; what
    [target.components] held before is dropped. When the collection was
    never defined, the target is returned as it was, and no list is
    created. *)
Theorem serializeComponents_replaces W h H o :
  hosts W !! h = Some H →
  Forall (λ r, is_Some (comps W !! r)) (default [] (_components H)) →
  ∃ o', serializeComponents h o W = Return o' W
      ∧ components o'
        = match _components H with
          | Some l => Some (pairs_of (comps W) l)
          | None => components o
          end.
Proof.
  intros Hh Hv. eexists. split; [by eapply serializeComponents_eq|].
  by destruct (_components H).
Qed.

(** C2, as stated, fails: host 0 holds a transform and a light, and the
    camera entry the target came with is gone after the call. *)
Lemma serializeComponents_drops_existing :
  ¬ appends_to_target demo_world 0
      {| components := Some [("Camera", demo_camera_data)] |}.
Proof.
  intros (o' & Hs & Ho).
  erewrite serializeComponents_eq in Hs;
    [|reflexivity|by repeat constructor].
  cbn [_components] in Hs. injection Hs as <-.
  apply (f_equal (fun x => length (default [] x))) in Ho.
  vm_compute in Ho. discriminate.
Qed.

(** ** Configuring *)

Lemma insert_snoc {A} (l : list A) x y :
  <[length l := x]> (l ++ [y]) = l ++ [x].
Proof.
  rewrite insert_app_r_alt by lia. by rewrite Nat.sub_diag.
Qed.

Lemma serialized_uid_truthy C obj u :
  uid C = Some u → u ≠ "" →
  truthy (prop (serialized C obj).2 "uid") = true.
Proof.
  intros Hu Hne. unfold serialized. rewrite Hu. cbn [snd].
  destruct (truthy (prop obj "uid")) eqn:Ht; cbn [negb]; [done|].
  unfold prop. rewrite lookup_insert_eq. cbn.
  apply negb_true_iff. by apply String.eqb_neq.
Qed.

Lemma serialized_keeps_truthy C d :
  truthy (prop d "uid") = true → serialized C d = (getObjectClassName C, d).
Proof. intros Ht. unfold serialized. rewrite Ht. by destruct (uid C). Qed.

(** The loop of [configureComponents], on entries none of which is the
    transform of position 0 and all of which name a registered class:
    every entry becomes a new component at the end of the collection. *)
Lemma configure_loop_attaches LS h entries : ∀ i W H,
  hosts W !! h = Some H →
  Forall (λ r, (r < length (comps W))%nat) (default [] (_components H)) →
  (i = 0%nat → head entries.*1 ≠ Some "Transform") →
  Forall (reconstructs LS) entries →
  Forall (λ e, truthy (prop e.2 "uid") = true) entries →
  ∃ W1 H1, configure_loop LS h i entries W = Return tt W1
    ∧ hosts W1 !! h = Some H1
    ∧ Forall (λ r, (r < length (comps W1))%nat)
             (default [] (_components H1))
    ∧ pairs_of (comps W1) (default [] (_components H1))
      = pairs_of (comps W) (default [] (_components H)) ++ entries.
Proof.
  induction entries as [|[n d] rest IH]; intros i W H Hh Hv Hi Hreg Huid.
  { exists W, H. by rewrite app_nil_r. }
  apply Forall_cons in Hreg as [(K & HK & Hname & Hser) Hreg].
  apply Forall_cons in Huid as [Hd Huid]. cbn [fst snd] in *.
  set (l := default [] (_components H)) in *.
  cbn [configure_loop].
  assert (String.eqb n "Transform" && Nat.eqb i 0 = false) as ->.
  { destruct (Nat.eqb_spec i 0) as [Hi0|_]; [|apply andb_false_r].
    rewrite andb_true_r. apply String.eqb_neq. intros ->. by apply Hi. }
  unfold read_registry at 1. rewrite HK. step. unfold bind at 1.
  set (c := length (comps W)).
  assert (Hc : (comps W ++ [K d]) !! c = Some (K d))
    by (by apply list_lookup_middle).
  assert (Hin : c ∉ l).
  { intros Hin. eapply Forall_forall in Hv; [|exact Hin]. unfold c in Hv. lia. }
  erewrite addComponent_fresh; [|red_world; done..].
  red_world. fold l.
  match goal with
  | |- context [configure_loop _ _ _ _ ?X] => set (W2 := X)
  end.
  set (C' := attached LS (uid_calls W) h (K d)) in *.
  assert (Hcs : comps W2 = comps W ++ [C'])
    by (unfold W2, c; cbn [comps]; apply insert_snoc).
  destruct (IH (S i) W2 (set_components (l ++ [c]) H))
    as (W1 & H1 & Hrun & Hh1 & Hv1 & Hp1); [..|done|done|].
  - unfold W2. cbn [hosts]. by eapply lookup_insert_same.
  - rewrite Hcs, length_app. cbn. apply Forall_app. split.
    + eapply Forall_impl; [exact Hv|]. intros r Hr. cbn in Hr. lia.
    + repeat constructor. unfold c. lia.
  - done.
  - exists W1, H1. split; [done|]. split; [done|]. split; [done|].
    rewrite Hp1, Hcs. cbn [_components set_components default from_option id].
    rewrite pairs_of_app, <- app_assoc. f_equal.
    + apply pairs_of_ext. eapply Forall_impl; [exact Hv|].
      intros r Hr. cbn in Hr. by rewrite lookup_app_l.
    + cbn [app]. f_equal. unfold pairs_of. cbn [omap list_omap].
      unfold c. rewrite list_lookup_middle by done. cbn [mbind option_bind].
      assert (serialize C' = Some d) as ->
          by (unfold C', attached; by destruct (uid (K d))).
      cbn [mbind option_bind]. rewrite serialized_keeps_truthy by done.
      unfold getObjectClassName.
      assert (constructor C' = constructor (K d)) as ->
          by (unfold C', attached; by destruct (uid (K d))).
      by rewrite Hname.
Qed.

(** The special case of line 46: an entry of class "Transform" at position 0
    is handed to the transform the host already has, and no component is
    built for it; a host without a transform makes the call fail there. *)
Lemma configure_loop_transform LS h data rest W H t T :
  hosts W !! h = Some H → transform H = Obj t → comps W !! t = Some T →
  configure_loop LS h 0 (("Transform", data) :: rest) W =
  configure_loop LS h 1 rest
    {| hosts := hosts W; comps := comps W; uid_calls := uid_calls W;
       log := log W ++ [call_configure t data] |}.
Proof.
  intros Hh Ht HT. cbn [configure_loop String.eqb Ascii.eqb Bool.eqb
                         Nat.eqb andb].
  step. rewrite Ht. by repeat step.
Qed.

Lemma configure_loop_no_transform LS h data rest W H :
  hosts W !! h = Some H → is_obj (transform H) = false →
  configure_loop LS h 0 (("Transform", data) :: rest) W =
  Raise (TypeError "Cannot read property 'configure' of undefined") W.
Proof.
  intros Hh Ht. cbn [configure_loop String.eqb Ascii.eqb Bool.eqb
                       Nat.eqb andb].
  step. by destruct (transform H).
Qed.

Lemma pairs_of_Forall (P : string * Data → Prop) cs l :
  (∀ r C obj, r ∈ l → cs !! r = Some C → serialize C = Some obj →
     P (serialized C obj)) →
  Forall P (pairs_of cs l).
Proof.
  induction l as [|r l IH]; intros HP; [constructor|].
  unfold pairs_of in *. cbn [omap list_omap].
  assert (Forall P (omap (λ c, C ← cs !! c; obj ← serialize C;
                          Some (serialized C obj)) l)) as Hl.
  { apply IH. intros r' C obj Hin. apply HP. by apply elem_of_cons; right. }
  destruct (cs !! r) as [C|] eqn:Hr; cbn [mbind option_bind]; [|done].
  destruct (serialize C) as [obj|] eqn:Hs; cbn [mbind option_bind]; [|done].
  constructor; [|done]. eapply HP; [by apply elem_of_cons; left|done..].
Qed.

Lemma pairs_of_head cs l r C :
  head l = Some r → cs !! r = Some C → is_Some (serialize C) →
  head (pairs_of cs l).*1 = Some (name (constructor C)).
Proof.
  intros Hhd Hr [obj Hs]. destruct l as [|r' l]; [done|].
  cbn in Hhd. simplify_eq. unfold pairs_of. cbn [omap list_omap].
  rewrite Hr. cbn [mbind option_bind]. rewrite Hs. done.
Qed.

(** X16. The round trip onto a host without a collection. Let every
    component of host [h] expose [serialize] and carry a non-empty uid, let
    the first of them not be of class "Transform", and let every serialized
    pair name a class that is registered in [LS.Components] with a
    constructor that rebuilds a component of that class name handing back
    the same data. Then serializing [h] into an empty target and configuring
    a host [h'] that never had a component with the result gives [h'] a
    collection that serializes to the same pairs of class name and data, in
    the same order. *)
Theorem round_trip_registered LS W h H h' H' :
  hosts W !! h = Some H →
  hosts W !! h' = Some H' → _components H' = None →
  Forall (λ r, ∃ C u, comps W !! r = Some C ∧ is_Some (serialize C)
                      ∧ uid C = Some u ∧ u ≠ "")
         (default [] (_components H)) →
  (∀ r C, head (default [] (_components H)) = Some r →
          comps W !! r = Some C → name (constructor C) ≠ "Transform") →
  Forall (reconstructs LS)
         (pairs_of (comps W) (default [] (_components H))) →
  round_trip LS W h h'.
Proof.
  intros Hh Hh' Hfresh Hall Hhead Hreg. unfold round_trip.
  assert (Hv : Forall (λ r, is_Some (comps W !! r))
                 (default [] (_components H))).
  { eapply Forall_impl; [exact Hall|]. intros r (C & _ & -> & _). by eexists. }
  erewrite serializeComponents_eq by done.
  unfold collection at 2. rewrite Hh.
  destruct (_components H) as [l|] eqn:Hl; cbn [default from_option id] in *.
  - destruct (configure_loop_attaches LS h' (pairs_of (comps W) l) 0 W H')
      as (W1 & H1 & Hrun & Hh1 & _ & Hp);
      [done|rewrite Hfresh; constructor| |done| |].
    + intros _. destruct l as [|r l0]; [done|].
      apply Forall_cons in Hall as [(C & u & Hr & Hs & _) _].
      erewrite pairs_of_head by done.
      intros [= Hn]. by eapply Hhead.
    + apply pairs_of_Forall. intros r C obj Hin Hr Hs.
      eapply Forall_forall in Hall as (C' & u & Hr' & _ & Hu & Hne); [|done].
      simplify_eq. by eapply serialized_uid_truthy.
    + eexists _, W1. split; [done|]. split; [done|].
      unfold collection. rewrite Hh1, Hp, Hfresh. done.
  - eexists _, W. split; [done|]. split; [done|].
    unfold collection. by rewrite Hh', Hfresh.
Qed.

(** On a host without a collection the transform is not rebuilt: host 0
    holds a transform and a light, both with [serialize] and both of
    registered classes. Configured with what host 0 serializes to, host 3,
    which has its transform but never had a component, gets the light only;
    host 1, which has no transform, gets nothing, the call failing on the
    first entry. *)
Lemma round_trip_loses_transform :
  Forall (λ r, ∃ C, comps demo_world !! r = Some C ∧ is_Some (serialize C))
         (collection demo_world 0)
  ∧ Forall (reconstructs demo_LS)
           (pairs_of (comps demo_world) (collection demo_world 0))
  ∧ ¬ round_trip demo_LS demo_world 0 3
  ∧ ¬ round_trip demo_LS demo_world 0 1.
Proof.
  split; [|split; [|split]].
  - repeat constructor; eexists; (split; [reflexivity|by eexists]).
  - repeat constructor; eexists; (split; [reflexivity|by split]).
  - intros (o & W1 & Hs & Hc & Hp).
    erewrite serializeComponents_eq in Hs;
      [|reflexivity|by repeat constructor].
    injection Hs as <-. vm_compute in Hc. injection Hc as <-.
    apply (f_equal length) in Hp. vm_compute in Hp. discriminate.
  - intros (o & W1 & Hs & Hc & Hp).
    erewrite serializeComponents_eq in Hs;
      [|reflexivity|by repeat constructor].
    injection Hs as <-. vm_compute in Hc. discriminate.
Qed.

(** ** The theorems at the example store *)

Lemma addComponent_twice_fails_witness :
  ∃ W', addComponent demo_LS 0 (Obj 1) demo_world
        = Raise (Thrown "inserting the same component twice") W'
      ∧ getComponents 0 W' = Return (Some [0; 1]%nat) W'
      ∧ length (collection W' 0) = length (collection demo_world 0).
Proof.
  apply (addComponent_twice_fails demo_LS demo_world 0 demo_host0 [0; 1]%nat 1
           demo_comp1);
    [reflexivity|reflexivity|repeat constructor|reflexivity].
Defined.

Lemma addComponent_twice_not_atomic_witness :
  ∃ W' C', addComponent demo_LS 2 (Obj 4) demo_world
           = Raise (Thrown "inserting the same component twice") W'
         ∧ comps W' !! 4%nat = Some C'
         ∧ _root C' = Obj 2
         ∧ log W' = [call_onAddedToNode 4 2]
         ∧ hosts W' = hosts demo_world
         ∧ uid C' = Some "COMP-3"
         ∧ uid_calls W' = 5%nat.
Proof.
  apply (addComponent_twice_not_atomic demo_LS demo_world 2 demo_host2
           [3; 4]%nat 4 demo_comp4);
    [reflexivity|reflexivity|repeat constructor|reflexivity].
Defined.

Lemma addComponent_attaches_witness :
  ∃ W' C' i,
    addComponent demo_LS 0 (Obj 2) demo_world = Return (Obj 2) W'
    ∧ comps W' !! 2%nat = Some C' ∧ _root C' = Obj 0
    ∧ constructor C' = Light
    ∧ getComponents 0 W' = Return (Some [0; 1; 2]%nat) W'
    ∧ getIndexOfComponent 0 (Obj 2) W' = Return i W' ∧ 0 ≤ i
    ∧ hasComponent 0 (ByClass Light) W' = Return true W'
    ∧ hasComponent 0 (ByName "Light") W' = Return true W'.
Proof.
  apply (addComponent_attaches demo_LS demo_world 0 demo_host0 2 demo_comp2);
    [reflexivity|reflexivity|by apply (bool_decide_unpack _)
    |repeat constructor; by eexists].
Defined.

Lemma removeComponent_detaches_witness :
  ∃ W' C' l',
    removeComponent 0 (Obj 0) demo_world = Return tt W'
    ∧ comps W' !! 0%nat = Some C' ∧ _root C' = Null
    ∧ getComponents 0 W' = Return (Some l') W'
    ∧ l' = [1%nat]
    ∧ getIndexOfComponent 0 (Obj 0) W' = Return (-1) W'.
Proof.
  destruct (removeComponent_detaches demo_world 0 demo_host0 [0; 1]%nat 0
              demo_comp0 eq_refl eq_refl eq_refl)
    as (W' & C' & l' & Hrun & Hc & Hroot & Hget & _ & _ & Hnd).
  destruct Hnd as [Hl Hi]; [by apply (bool_decide_unpack _)|].
  exists W', C', l'. auto 10.
Defined.

Lemma removeComponent_absent_side_effects_witness :
  ∃ W', removeComponent 2 (Obj 1) demo_world = Return tt W'
      ∧ comps W' = <[1%nat := set_root Null demo_comp1]> (comps demo_world)
      ∧ _root (set_root Null demo_comp1) = Null
      ∧ log W' = [call_onRemovedFromNode 1 2; LEvent_unbindAll 2 1]
      ∧ hosts W' = hosts demo_world
      ∧ getComponents 2 W' = Return (Some [3; 4]%nat) W'.
Proof.
  apply (removeComponent_absent_side_effects demo_world 2 demo_host2
           [3; 4]%nat 1 demo_comp1);
    [reflexivity|reflexivity|by apply (bool_decide_unpack _)|reflexivity].
Defined.

Lemma getComponentByIndex_out_of_range_witness :
  ∃ v, getComponentByIndex 0 2 demo_world = Return v demo_world
     ∧ is_obj v = false.
Proof.
  apply (getComponentByIndex_out_of_range demo_world 0 demo_host0 2);
    [reflexivity|].
  intros l [= <-]. right. cbn. lia.
Defined.

Lemma uninitialized_collection_witness :
  (∃ msg W', removeComponent 1 (Obj 2) demo_world = Raise (TypeError msg) W')
  ∧ (∃ msg, removeAllComponents 1 demo_world
            = Raise (TypeError msg) demo_world)
  ∧ (∀ x, getIndexOfComponent 1 x demo_world = Return (-1) demo_world)
  ∧ (∀ a, getComponent 1 a demo_world = Return Null demo_world)
  ∧ (∀ a, hasComponent 1 a demo_world = Return false demo_world)
  ∧ (∀ u, getComponentByUId 1 u demo_world = Return Null demo_world).
Proof.
  apply (uninitialized_collection demo_world 1 demo_host1 2 demo_comp2);
    reflexivity.
Defined.

Lemma serializeComponents_replaces_witness :
  ∃ o', serializeComponents 0
          {| components := Some [("Camera", demo_camera_data)] |} demo_world
        = Return o' demo_world
      ∧ components o' = Some (pairs_of (comps demo_world) [0; 1]%nat).
Proof.
  apply (serializeComponents_replaces demo_world 0 demo_host0);
    [reflexivity|repeat constructor; by eexists].
Defined.

Lemma uid_assigned_once_witness :
  ∃ C1, comps demo_world_after !! 4%nat = Some C1
      ∧ uid C1 = Some "COMP-3"
      ∧ ∃ W2 C2, addComponent demo_LS 1 (Obj 4) demo_world_after
                 = Return (Obj 4) W2
               ∧ comps W2 !! 4%nat = Some C2
               ∧ uid C2 = Some "COMP-3".
Proof.
  destruct (uid_assigned_once demo_LS demo_world demo_world_after 4
              demo_comp4 eq_refl)
    as (C1 & Hc1 & Hkept & Hadd).
  { apply (calls_run demo_LS demo_calls). vm_compute. reflexivity. }
  exists C1. split; [assumption|].
  specialize (Hkept "COMP-3" eq_refl). split; [assumption|].
  destruct (Hadd 1%nat (set_components [] demo_host1)) as (W2 & C2 & H2);
    [vm_compute; reflexivity|by apply (bool_decide_unpack _)|].
  exists W2, C2. rewrite Hkept in H2. exact H2.
Defined.

Lemma round_trip_registered_witness : round_trip demo_LS demo_world 2 1.
Proof.
  apply (round_trip_registered demo_LS demo_world 2 demo_host2 1 demo_host1);
    [reflexivity|reflexivity|reflexivity| | |].
  - repeat constructor; eexists _, _;
      (split; [reflexivity|split; [by eexists|split; [reflexivity|done]]]).
  - intros r C [= <-] [= <-]. done.
  - repeat constructor; eexists; (split; [reflexivity|by split]).
Defined.

(** * Further properties *)

(** ** Detaching every component *)

Lemma set_components_id H l : _components H = Some l → set_components l H = H.
Proof. destruct H as [cs t]. cbn. by intros ->. Qed.

Lemma removal_log_cons cs h c l C :
  cs !! c = Some C →
  removal_log cs h (c :: l) =
  hook_log (onRemovedFromNode C) (call_onRemovedFromNode c h)
  ++ [LEvent_unbindAll h c] ++ removal_log cs h l.
Proof.
  intros Hc. unfold removal_log. cbn [mbind list_bind]. rewrite Hc.
  by rewrite <- app_assoc.
Qed.

Lemma removal_log_ext cs cs' h l :
  (∀ c, c ∈ l → onRemovedFromNode <$> cs' !! c = onRemovedFromNode <$> cs !! c) →
  removal_log cs' h l = removal_log cs h l.
Proof.
  induction l as [|c l IH]; intros Hext; [done|].
  unfold removal_log in *. cbn [mbind list_bind]. rewrite IH.
  - f_equal. specialize (Hext c ltac:(by apply elem_of_cons; left)).
    destruct (cs' !! c), (cs !! c); cbn in Hext; try done.
    injection Hext as ->. done.
  - intros c' Hc'. apply Hext. by apply elem_of_cons; right.
Qed.

(** What the loop of [removeAllComponents] leaves behind. *)
Lemma removeAllComponents_loop_result h l : ∀ fuel W H,
  hosts W !! h = Some H → _components H = Some l →
  Forall (λ r, is_Some (comps W !! r)) l →
  (length l ≤ fuel)%nat →
  ∃ W', removeAllComponents_loop fuel h W = Return tt W'
      ∧ hosts W' = <[h := set_components [] H]> (hosts W)
      ∧ log W' = log W ++ removal_log (comps W) h l
      ∧ uid_calls W' = uid_calls W
      ∧ ∀ c, comps W' !! c
             = (if decide (c ∈ l) then set_root Null else id) <$> comps W !! c.
Proof.
  induction l as [|c l IH]; intros fuel W H Hh Hl Hv Hfuel.
  - exists W. split; [|split; [|split; [|split]]].
    + destruct fuel; cbn [removeAllComponents_loop]; step; by rewrite Hl.
    + rewrite set_components_id by done. by rewrite list_insert_id.
    + cbn. by rewrite app_nil_r.
    + done.
    + intros c. rewrite decide_False by apply not_elem_of_nil.
      by destruct (comps W !! c).
  - destruct fuel as [|fuel]; [cbn in Hfuel; lia|].
    apply Forall_cons in Hv as [[C HC] Hv].
    cbn [removeAllComponents_loop]. step. rewrite Hl.
    unfold bind at 1. erewrite removeComponent_defined by done.
    rewrite decide_True by (apply elem_of_cons; by left).
    rewrite indexOf_head. change (splice1 0 (c :: l)) with l.
    match goal with
    | |- context [removeAllComponents_loop _ _ ?X] => set (W1 := X)
    end.
    destruct (IH fuel W1 (set_components l H))
      as (W' & Hrun & Hhosts & Hlog & Hu & Hcomps).
    + unfold W1. red_world. by eapply lookup_insert_same.
    + done.
    + eapply Forall_impl; [exact Hv|]. intros r Hr. unfold W1. red_world.
      apply lookup_lt_is_Some. rewrite length_insert.
      by apply lookup_lt_is_Some.
    + cbn in Hfuel. lia.
    + exists W'. split; [done|]. split; [|split; [|split]].
      * rewrite Hhosts. unfold W1. red_world.
        by rewrite list_insert_insert_eq.
      * rewrite Hlog. unfold W1. red_world.
        rewrite (removal_log_cons _ _ _ _ _ HC), <- !app_assoc.
        do 3 f_equal. apply removal_log_ext. intros c' _.
        destruct (decide (c' = c)) as [Heq|Hne]; [subst c'|].
        -- erewrite lookup_insert_same by done. symmetry.
           exact (f_equal (fmap onRemovedFromNode) HC).
        -- by rewrite list_lookup_insert_ne.
      * done.
      * intros c'. rewrite Hcomps. unfold W1. red_world.
        change ref with nat in *.
        destruct (decide (c' = c)) as [Heq|Hne]; [subst c'|].
        -- erewrite lookup_insert_same by done. rewrite HC.
           rewrite (decide_True (P := c ∈ c :: l))
             by (apply elem_of_cons; by left).
           by destruct (decide (c ∈ l)).
        -- rewrite list_lookup_insert_ne by done.
           destruct (decide (c' ∈ l)) as [Hin|Hin].
           ++ by rewrite decide_True by (apply elem_of_cons; by right).
           ++ rewrite decide_False; [done|].
              intros [?|?]%elem_of_cons; done.
Qed.

(** X1. On a host whose collection is defined, [removeAllComponents] returns
    normally and leaves the collection empty but defined. Every component
    that was in the collection has its host reference set to [null], every
    other component and every other host is as before, and the hooks and
    [LEvent.unbindAll] have been called once for each component, in the
    order of the collection. *)
Theorem removeAllComponents_detaches_all W h H l :
  hosts W !! h = Some H → _components H = Some l →
  Forall (λ r, is_Some (comps W !! r)) l →
  ∃ W', removeAllComponents h W = Return tt W'
      ∧ getComponents h W' = Return (Some []) W'
      ∧ log W' = log W ++ removal_log (comps W) h l
      ∧ (∀ c C, c ∈ l → comps W !! c = Some C →
           comps W' !! c = Some (set_root Null C))
      ∧ (∀ c, c ∉ l → comps W' !! c = comps W !! c)
      ∧ (∀ h', h' ≠ h → hosts W' !! h' = hosts W !! h').
Proof.
  intros Hh Hl Hv. unfold removeAllComponents. rewrite Hh, Hl.
  destruct (removeAllComponents_loop_result h l (length l) W H)
    as (W' & Hrun & Hhosts & Hlog & _ & Hcomps); [done..|].
  exists W'. split; [done|]. split; [|split; [done|split; [|split]]].
  - erewrite getComponents_eq
      by (rewrite Hhosts; by eapply lookup_insert_same).
    done.
  - intros c C Hin Hc. change ref with nat in *.
    by rewrite Hcomps, decide_True, Hc.
  - intros c Hin. rewrite Hcomps, decide_False by done.
    apply option_fmap_id.
  - intros h' Hne. rewrite Hhosts. by rewrite list_lookup_insert_ne.
Qed.

Lemma removeAllComponents_detaches_all_witness :
  ∃ W', removeAllComponents 0 demo_world = Return tt W'
      ∧ getComponents 0 W' = Return (Some []) W'
      ∧ log W' = [call_onRemovedFromNode 0 0; LEvent_unbindAll 0 0;
                  call_onRemovedFromNode 1 0; LEvent_unbindAll 0 1]
      ∧ comps W' !! 1%nat = Some (set_root Null demo_comp1)
      ∧ comps W' !! 3%nat = Some demo_comp3
      ∧ hosts W' !! 2%nat = Some demo_host2.
Proof.
  destruct (removeAllComponents_detaches_all demo_world 0 demo_host0
              [0; 1]%nat eq_refl eq_refl)
    as (W' & Hrun & Hget & Hlog & Hin & Hout & Hhosts).
  { repeat constructor; by eexists. }
  exists W'. split; [assumption|]. split; [assumption|].
  split; [exact Hlog|].
  split; [apply Hin; [by apply (bool_decide_unpack _)|reflexivity]|].
  split; [by rewrite Hout by (by apply (bool_decide_unpack _))|].
  by rewrite Hhosts.
Defined.

(** ** The collections the calls build *)

(** X2. In every store that calls of the file build from one in which no
    host has a collection yet, no collection holds a component twice and
    every component a collection holds is in the store: the check of line
    116 is kept by every later call, returning or throwing. *)
Theorem collections_hold_no_duplicates LS W0 W h :
  Forall (λ H, _components H = None) (hosts W0) →
  rtc (api_step LS) W0 W →
  NoDup (collection W h)
  ∧ Forall (λ r, is_Some (comps W !! r)) (collection W h).
Proof.
  intros Hinit Hrun.
  pose proof (api_run_consistent LS W0 W Hrun (consistent_initial W0 Hinit))
    as Hcon.
  unfold collection. destruct (hosts W !! h) as [H|] eqn:Hh.
  - destruct (_components H) as [l|] eqn:Hl; [by eapply Hcon|].
    split; constructor.
  - split; constructor.
Qed.

Lemma collections_hold_no_duplicates_witness :
  NoDup (collection demo_initial_after 0)
  ∧ Forall (λ r, is_Some (comps demo_initial_after !! r))
           (collection demo_initial_after 0).
Proof.
  apply (collections_hold_no_duplicates demo_LS demo_initial).
  - repeat constructor.
  - apply (calls_run demo_LS demo_initial_calls). vm_compute. reflexivity.
Defined.

(** The second attachment of component 1 threw and left the collection
    alone; the removal took component 0 out. *)
Example demo_initial_collection : collection demo_initial_after 0 = [1; 2]%nat.
Proof. vm_compute. reflexivity. Qed.

(** ** Attaching and detaching in sequence *)

Lemma splice1_snoc l c :
  c ∉ l → splice1 (indexOf (l ++ [c]) c) (l ++ [c]) = l.
Proof.
  induction l as [|y l IH]; intros Hc.
  - cbn [app]. by rewrite indexOf_head.
  - apply not_elem_of_cons in Hc as [Hne Hc].
    change ((y :: l) ++ [c]) with (y :: (l ++ [c])).
    rewrite splice1_indexOf_cons, decide_False by done.
    rewrite decide_True by (apply elem_of_app; right; by left).
    by rewrite IH.
Qed.

(** X3. Attaching a component that is not in the collection and detaching
    it again gives the collection back as it was, except that a collection
    that was not defined before is now defined and empty. The component is
    left with a [null] host reference and with the uid the attachment gave
    it; no other component changes. *)
Theorem add_then_remove_restores LS W h H c C :
  hosts W !! h = Some H → comps W !! c = Some C →
  c ∉ default [] (_components H) →
  ∃ W1 W2 C2,
    addComponent LS h (Obj c) W = Return (Obj c) W1
    ∧ removeComponent h (Obj c) W1 = Return tt W2
    ∧ getComponents h W2 = Return (Some (default [] (_components H))) W2
    ∧ comps W2 !! c = Some C2 ∧ _root C2 = Null ∧ is_Some (uid C2)
    ∧ (∀ u, uid C = Some u → uid C2 = Some u)
    ∧ (∀ c', c' ≠ c → comps W2 !! c' = comps W !! c').
Proof.
  intros Hh Hc Hin. set (l := default [] (_components H)) in *.
  eexists _, _, (set_root Null (attached LS (uid_calls W) h C)).
  split; [by eapply addComponent_fresh|]. fold l.
  split.
  { eapply (removeComponent_defined _ h (set_components (l ++ [c]) H)
              (l ++ [c]) c); red_world; [|done|];
      by eapply lookup_insert_same. }
  red_world. rewrite decide_True by (apply elem_of_app; right; by left).
  rewrite splice1_snoc by done. rewrite !list_insert_insert_eq.
  split.
  { erewrite getComponents_eq by (red_world; by eapply lookup_insert_same).
    done. }
  split; [by eapply lookup_insert_same|].
  split; [done|].
  split; [unfold attached; destruct (uid C) eqn:Hu; cbn; rewrite ?Hu; by eexists|].
  split.
  - intros u Hu. unfold attached. rewrite Hu. cbn. done.
  - intros c' Hne. by rewrite list_lookup_insert_ne.
Qed.

Lemma add_then_remove_restores_witness :
  ∃ W1 W2 C2,
    addComponent demo_LS 1 (Obj 2) demo_world = Return (Obj 2) W1
    ∧ removeComponent 1 (Obj 2) W1 = Return tt W2
    ∧ getComponents 1 W2 = Return (Some []) W2
    ∧ comps W2 !! 2%nat = Some C2 ∧ _root C2 = Null ∧ is_Some (uid C2)
    ∧ (∀ u, uid demo_comp2 = Some u → uid C2 = Some u)
    ∧ (∀ c', c' ≠ 2%nat → comps W2 !! c' = comps demo_world !! c').
Proof.
  apply (add_then_remove_restores demo_LS demo_world 1 demo_host1 2 demo_comp2);
    [reflexivity|reflexivity|by apply (bool_decide_unpack _)].
Defined.

(** X4. Nothing keeps a component on one host: attaching a component that is
    in the collection of host [h] to another host [h'] succeeds; afterwards
    the component is in both collections and its host reference names
    [h']. *)
Theorem addComponent_second_host LS W h H l h' H' c C :
  hosts W !! h = Some H → _components H = Some l → c ∈ l →
  hosts W !! h' = Some H' → h' ≠ h → c ∉ default [] (_components H') →
  comps W !! c = Some C →
  ∃ W' C', addComponent LS h' (Obj c) W = Return (Obj c) W'
         ∧ getComponents h W' = Return (Some l) W'
         ∧ getComponents h' W'
           = Return (Some (default [] (_components H') ++ [c])) W'
         ∧ comps W' !! c = Some C' ∧ _root C' = Obj h'.
Proof.
  intros Hh Hl Hin Hh' Hne Hnot Hc. eexists _, _.
  split; [by eapply addComponent_fresh|]. red_world.
  split.
  { erewrite getComponents_eq
      by (red_world; rewrite list_lookup_insert_ne by done; done).
    by rewrite Hl. }
  split.
  { by erewrite getComponents_eq
      by (red_world; by eapply lookup_insert_same). }
  split; [by eapply lookup_insert_same|].
  unfold attached. by destruct (uid C).
Qed.

Lemma addComponent_second_host_witness :
  ∃ W' C', addComponent demo_LS 2 (Obj 1) demo_world = Return (Obj 1) W'
         ∧ getComponents 0 W' = Return (Some [0; 1]%nat) W'
         ∧ getComponents 2 W' = Return (Some [3; 4; 1]%nat) W'
         ∧ comps W' !! 1%nat = Some C' ∧ _root C' = Obj 2.
Proof.
  apply (addComponent_second_host demo_LS demo_world 0 demo_host0 [0; 1]%nat
           2 demo_host2 1 demo_comp1);
    [reflexivity|reflexivity|by apply (bool_decide_unpack _)|reflexivity
    |discriminate|by apply (bool_decide_unpack _)|reflexivity].
Defined.

(** X5. Components attached one after the other end up in the collection in
    the order of the calls, after what the collection held: for distinct
    components of the store that are not in the collection, every call
    returns its component, each component gets the host as its host
    reference and has a uid, and the components that were not attached are
    as before. *)
Theorem addComponent_in_order LS h cs : ∀ W H,
  hosts W !! h = Some H → NoDup cs →
  Forall (λ c, is_Some (comps W !! c) ∧ c ∉ default [] (_components H)) cs →
  ∃ W', attached_in_turn LS h cs W W'
      ∧ collection W' h = default [] (_components H) ++ cs
      ∧ Forall (λ c, ∃ C', comps W' !! c = Some C' ∧ _root C' = Obj h
                           ∧ is_Some (uid C')) cs
      ∧ (∀ c', c' ∉ cs → comps W' !! c' = comps W !! c').
Proof.
  induction cs as [|c cs IH]; intros W H Hh Hnd Hall.
  { exists W. split; [done|]. split; [|split; [constructor|done]].
    unfold collection. by rewrite Hh, app_nil_r. }
  apply NoDup_cons in Hnd as [Hc Hnd].
  apply Forall_cons in Hall as [[[C HC] Hnot] Hall].
  set (l := default [] (_components H)) in *.
  pose proof (addComponent_fresh LS W h H c C Hh Hnot HC) as Hadd.
  fold l in Hadd.
  match type of Hadd with _ = Return _ ?X => set (W1 := X) in * end.
  destruct (IH W1 (set_components (l ++ [c]) H))
    as (W' & Hrun & Hcoll & Hattached & Hframe); [| |..|].
  - unfold W1. red_world. by eapply lookup_insert_same.
  - done.
  - eapply Forall_impl.
    + apply Forall_and. split; [exact Hall|].
      apply Forall_forall. intros x Hx. exact (conj Hx I).
    + intros x [[Hx Hxl] [Hxin _]]. cbn beta in *. split.
      * unfold W1. red_world. apply lookup_lt_is_Some.
        rewrite length_insert. by apply lookup_lt_is_Some.
      * cbn [_components set_components default from_option id].
        intros [?|Heq%list_elem_of_singleton]%elem_of_app; [done|].
        by subst.
  - exists W'. split; [by exists W1|]. split; [|split].
    + rewrite Hcoll. cbn [_components set_components default from_option id].
      by rewrite <- app_assoc.
    + constructor; [|done].
      rewrite Hframe by done. unfold W1. red_world.
      erewrite lookup_insert_same by done. eexists. split; [done|].
      unfold attached. destruct (uid C) eqn:Hu; cbn; rewrite ?Hu; eauto.
    + intros c' Hc'. apply not_elem_of_cons in Hc' as [Hne Hc'].
      rewrite Hframe by done. unfold W1. red_world.
      by rewrite list_lookup_insert_ne.
Qed.

Lemma addComponent_in_order_witness :
  ∃ W', attached_in_turn demo_LS 1 [2; 0; 1]%nat demo_initial W'
      ∧ collection W' 1 = [2; 0; 1]%nat
      ∧ Forall (λ c, ∃ C', comps W' !! c = Some C' ∧ _root C' = Obj 1
                           ∧ is_Some (uid C')) [2; 0; 1]%nat
      ∧ (∀ c', c' ∉ [2; 0; 1]%nat → comps W' !! c' = comps demo_initial !! c').
Proof.
  apply (addComponent_in_order demo_LS 1 [2; 0; 1]%nat demo_initial demo_host1);
    [reflexivity|by apply (bool_decide_unpack _)|].
  repeat constructor; try (by eexists); apply not_elem_of_nil.
Defined.

(** ** Positions *)

Lemma indexOf_from_lookup l x : ∀ i,
  x ∈ l → l !! Z.to_nat (indexOf_from i l x - i) = Some x.
Proof.
  induction l as [|y l IH]; intros i Hx; [by apply elem_of_nil in Hx|].
  cbn [indexOf_from]. destruct (decide (y = x)) as [->|Hne].
  - by rewrite Z.sub_diag.
  - apply elem_of_cons in Hx as [->|Hx]; [done|].
    pose proof (indexOf_from_in (i + 1) l x) as Hpos.
    destruct (indexOf_from_range (i + 1) l x) as [Heq|Hr].
    + destruct (decide (0 ≤ i + 1)) as [Hi|Hi].
      * by apply Hpos in Heq.
      * specialize (IH (i + 1) Hx). rewrite Heq in IH.
        replace (Z.to_nat (-1 - (i + 1))) with (Z.to_nat (-1 - i - 1)) in IH
          by lia.
        rewrite Heq.
        destruct (Z.to_nat (-1 - i)) as [|n] eqn:Hn.
        -- lia.
        -- cbn. replace n with (Z.to_nat (-1 - i - 1)) by lia. done.
    + replace (Z.to_nat (indexOf_from (i + 1) l x - i))
        with (S (Z.to_nat (indexOf_from (i + 1) l x - (i + 1)))) by lia.
      cbn. by apply IH.
Qed.

Lemma indexOf_lookup l x : x ∈ l → l !! Z.to_nat (indexOf l x) = Some x.
Proof.
  intros Hx. pose proof (indexOf_from_lookup l x 0 Hx) as Hl.
  by rewrite Z.sub_0_r in Hl.
Qed.

Lemma indexOf_from_NoDup l x : ∀ i n,
  NoDup l → l !! n = Some x → indexOf_from i l x = i + Z.of_nat n.
Proof.
  induction l as [|y l IH]; intros i n Hnd Hn; [done|].
  apply NoDup_cons in Hnd as [Hy Hnd]. cbn [indexOf_from].
  destruct n as [|n]; cbn in Hn.
  - simplify_eq. rewrite decide_True by done. lia.
  - rewrite decide_False.
    + rewrite (IH (i + 1) n) by done. lia.
    + intros ->. apply Hy. by eapply list_elem_of_lookup_2.
Qed.

(** X6. Positions and components correspond: the position
    [getIndexOfComponent] gives for a component of the collection is one at
    which [getComponentByIndex] gives that component back; and, in a
    collection that holds no component twice, the position at which
    [getComponentByIndex] gives a component is the one
    [getIndexOfComponent] gives for it. *)
Theorem index_round_trip W h H l c :
  hosts W !! h = Some H → _components H = Some l →
  (c ∈ l →
     ∃ i, getIndexOfComponent h (Obj c) W = Return i W
        ∧ getComponentByIndex h i W = Return (Obj c) W)
  ∧ (NoDup l → ∀ i, getComponentByIndex h i W = Return (Obj c) W →
       getIndexOfComponent h (Obj c) W = Return i W).
Proof.
  intros Hh Hl.
  assert (∀ i, getComponentByIndex h i W = Return (nth_ref l i) W) as Hget.
  { intros i. unfold getComponentByIndex. step. by rewrite Hl. }
  erewrite getIndexOfComponent_eq by done. split.
  - intros Hin. exists (indexOf l c). split; [done|].
    rewrite Hget. unfold nth_ref.
    pose proof (indexOf_in l c Hin) as Hr.
    destruct (indexOf l c <? 0) eqn:Hneg; [lia|].
    by rewrite indexOf_lookup.
  - intros Hnd i. rewrite Hget. unfold nth_ref.
    destruct (i <? 0) eqn:Hneg; [done|].
    destruct (l !! Z.to_nat i) as [r|] eqn:Hi; [|done].
    intros [= ->]. unfold indexOf.
    rewrite (indexOf_from_NoDup l c 0 (Z.to_nat i)) by done.
    f_equal. lia.
Qed.

Lemma index_round_trip_witness :
  (∃ i, getIndexOfComponent 2 (Obj 4) demo_world = Return i demo_world
      ∧ getComponentByIndex 2 i demo_world = Return (Obj 4) demo_world)
  ∧ (getComponentByIndex 2 1 demo_world = Return (Obj 4) demo_world →
       getIndexOfComponent 2 (Obj 4) demo_world = Return 1 demo_world).
Proof.
  destruct (index_round_trip demo_world 2 demo_host2 [3; 4]%nat 4
              eq_refl eq_refl) as [Hto Hfrom].
  split.
  - apply Hto. by apply (bool_decide_unpack _).
  - apply Hfrom. by apply (bool_decide_unpack _).
Defined.

(** ** Looking components up *)

(** The loops of the lookups stop at the first component that passes. *)
Lemma first_match_first p l W :
  Forall (λ r, is_Some (comps W !! r)) l →
  ∃ r, first_match p l W = Return r W
     ∧ match r with
       | Obj c =>
           ∃ i C, l !! i = Some c ∧ comps W !! c = Some C ∧ p C = true
                ∧ ∀ j c' C', (j < i)%nat → l !! j = Some c' →
                    comps W !! c' = Some C' → p C' = false
       | Null => ∀ c C, c ∈ l → comps W !! c = Some C → p C = false
       | Undefined => False
       end.
Proof.
  induction l as [|r l IH]; intros Hv.
  { exists Null. split; [done|]. intros c C Hc. by apply elem_of_nil in Hc. }
  apply Forall_cons in Hv as [[C HC] Hv]. cbn [first_match]. step.
  destruct (p C) eqn:Hp.
  - exists (Obj r). split; [done|]. exists 0%nat, C.
    repeat split; try done. intros j c' C' Hj. lia.
  - destruct (IH Hv) as (r' & Hrun & Hr'). exists r'. split; [done|].
    destruct r' as [| |c]; [done| |].
    + intros c' C' [->|Hin]%elem_of_cons Hc'; [congruence|by eapply Hr'].
    + destruct Hr' as (i & Cc & Hi & Hc & Hpc & Hbefore).
      exists (S i), Cc. repeat split; try done.
      intros [|j] c' C' Hj Hlj Hc'; cbn in Hlj.
      * simplify_eq. congruence.
      * eapply (Hbefore j); [lia|done..].
Qed.

(** X7. On a defined collection, [getComponent] with a class or a class name
    returns the first component of the collection, in attachment order,
    whose constructor is that class or has that name, and [null] when there
    is none. *)
Theorem getComponent_first_match W h H l a :
  hosts W !! h = Some H → _components H = Some l →
  Forall (λ r, is_Some (comps W !! r)) l → a ≠ NoClass →
  ∃ r, getComponent h a W = Return r W
     ∧ match r with
       | Obj c =>
           ∃ i C, l !! i = Some c ∧ comps W !! c = Some C
                ∧ class_test a C = true
                ∧ ∀ j c' C', (j < i)%nat → l !! j = Some c' →
                    comps W !! c' = Some C' → class_test a C' = false
       | Null => ∀ c C, c ∈ l → comps W !! c = Some C →
                   class_test a C = false
       | Undefined => False
       end.
Proof.
  intros Hh Hl Hv Ha. unfold getComponent. step. rewrite Hl.
  destruct a; [| |done]; by apply first_match_first.
Qed.

Lemma getComponent_first_match_witness :
  ∃ r, getComponent 2 (ByName "Light") demo_world = Return r demo_world
     ∧ match r with
       | Obj c =>
           ∃ i C, [3; 4]%nat !! i = Some c ∧ comps demo_world !! c = Some C
                ∧ class_test (ByName "Light") C = true
                ∧ ∀ j c' C', (j < i)%nat → [3; 4]%nat !! j = Some c' →
                    comps demo_world !! c' = Some C' →
                    class_test (ByName "Light") C' = false
       | Null => ∀ c C, c ∈ [3; 4]%nat → comps demo_world !! c = Some C →
                   class_test (ByName "Light") C = false
       | Undefined => False
       end.
Proof.
  apply (getComponent_first_match demo_world 2 demo_host2 [3; 4]%nat
           (ByName "Light"));
    [reflexivity|reflexivity|repeat constructor; by eexists|discriminate].
Defined.

Example demo_getComponent :
  getComponent 2 (ByName "Light") demo_world = Return (Obj 4) demo_world
  ∧ getComponent 2 (ByClass Transform) demo_world = Return Null demo_world.
Proof. split; vm_compute; reflexivity. Qed.

(** X8. On a defined collection, [getComponentByUId] returns a component of
    the collection that has the given uid, [null] when no component of the
    collection has it, and the one component that has it when it is the
    only one. *)
Theorem getComponentByUId_finds W h H l u :
  hosts W !! h = Some H → _components H = Some l →
  Forall (λ r, is_Some (comps W !! r)) l →
  ∃ r, getComponentByUId h u W = Return r W
     ∧ match r with
       | Obj c => c ∈ l ∧ ∃ C, comps W !! c = Some C ∧ uid C = Some u
       | Null => ∀ c C, c ∈ l → comps W !! c = Some C → uid C ≠ Some u
       | Undefined => False
       end
     ∧ ∀ c C, c ∈ l → comps W !! c = Some C → uid C = Some u →
         (∀ c' C', c' ∈ l → comps W !! c' = Some C' → uid C' = Some u →
            c' = c) →
         r = Obj c.
Proof.
  intros Hh Hl Hv. unfold getComponentByUId. step. rewrite Hl.
  destruct (first_match_first (λ C, bool_decide (uid C = Some u)) l W Hv)
    as (r & Hrun & Hr).
  exists r. split; [done|]. destruct r as [| |c0]; [done| |].
  - split.
    + intros c C Hin Hc Hu. specialize (Hr c C Hin Hc).
      by apply bool_decide_eq_false in Hr.
    + intros c C Hin Hc Hu _. specialize (Hr c C Hin Hc).
      by apply bool_decide_eq_false in Hr.
  - destruct Hr as (i & C0 & Hi & Hc0 & Hu0 & _).
    apply bool_decide_eq_true in Hu0.
    assert (c0 ∈ l) as Hin0 by (by eapply list_elem_of_lookup_2).
    split; [split; [done|by exists C0]|].
    intros c C Hin Hc Hu Huniq. f_equal. by eapply Huniq.
Qed.

Lemma getComponentByUId_finds_witness :
  ∃ r, getComponentByUId 2 "COMP-3" demo_world = Return r demo_world
     ∧ match r with
       | Obj c => c ∈ [3; 4]%nat
                  ∧ ∃ C, comps demo_world !! c = Some C
                       ∧ uid C = Some "COMP-3"
       | Null => ∀ c C, c ∈ [3; 4]%nat → comps demo_world !! c = Some C →
                   uid C ≠ Some "COMP-3"
       | Undefined => False
       end
     ∧ ∀ c C, c ∈ [3; 4]%nat → comps demo_world !! c = Some C →
         uid C = Some "COMP-3" →
         (∀ c' C', c' ∈ [3; 4]%nat → comps demo_world !! c' = Some C' →
            uid C' = Some "COMP-3" → c' = c) →
         r = Obj c.
Proof.
  apply (getComponentByUId_finds demo_world 2 demo_host2 [3; 4]%nat "COMP-3");
    [reflexivity|reflexivity|repeat constructor; by eexists].
Defined.

(** X9. On a defined collection, [hasComponent] with a class or a class name
    returns normally, and returns [true] exactly when some component of the
    collection has that class as its constructor, or a constructor of that
    name. *)
Theorem hasComponent_iff W h H l a :
  hosts W !! h = Some H → _components H = Some l →
  Forall (λ r, is_Some (comps W !! r)) l → a ≠ NoClass →
  ∃ b, hasComponent h a W = Return b W
     ∧ (b = true ↔
        ∃ c C, c ∈ l ∧ comps W !! c = Some C ∧ class_test a C = true).
Proof.
  intros Hh Hl Hv Ha. unfold hasComponent. step. rewrite Hl.
  destruct (first_match_first (class_test a) l W Hv) as (r & Hrun & Hr).
  exists (is_obj r). split.
  { destruct a; [| |done]; unfold bind; by rewrite Hrun. }
  destruct r as [| |c]; [done| |]; cbn [is_obj].
  - split; [done|]. intros (c & C & Hin & Hc & Ht).
    rewrite (Hr c C Hin Hc) in Ht. done.
  - split; [|done]. intros _.
    destruct Hr as (i & C & Hi & Hc & Ht & _).
    exists c, C. split; [by eapply list_elem_of_lookup_2|done].
Qed.

Lemma hasComponent_iff_witness :
  ∃ b, hasComponent 0 (ByClass Camera) demo_world = Return b demo_world
     ∧ (b = true ↔
        ∃ c C, c ∈ [0; 1]%nat ∧ comps demo_world !! c = Some C
             ∧ class_test (ByClass Camera) C = true).
Proof.
  apply (hasComponent_iff demo_world 0 demo_host0 [0; 1]%nat (ByClass Camera));
    [reflexivity|reflexivity|repeat constructor; by eexists|discriminate].
Defined.

(** ** What is serialized *)

(** Lines 77-83 for one component. *)
Lemma serialized_spec C obj :
  (serialized C obj).1 = name (constructor C)
  ∧ (∀ k, k ≠ "uid" → (serialized C obj).2 !! k = obj !! k)
  ∧ prop (serialized C obj).2 "uid"
    = match uid C with
      | Some u => if truthy (prop obj "uid") then prop obj "uid" else VStr u
      | None => prop obj "uid"
      end.
Proof.
  unfold serialized, getObjectClassName. cbn [fst snd].
  destruct (uid C) as [u|]; [|done].
  destruct (truthy (prop obj "uid")); cbn [negb]; [done|].
  split; [done|]. split.
  - intros k Hk. by rewrite lookup_insert_ne.
  - unfold prop. by rewrite lookup_insert_eq.
Qed.

(** X10. On a defined collection, [serializeComponents] writes one pair for
    each component that has [serialize], in the order of the collection, and
    none for the others. The pair holds the name of the constructor and the
    object [serialize] returned, in which only [uid] may differ: a truthy
    [uid] that [serialize] supplied is kept, and otherwise the uid of the
    component, if it has one, is written. *)
Theorem serializeComponents_pairs W h H l o :
  hosts W !! h = Some H → _components H = Some l →
  Forall (λ r, is_Some (comps W !! r)) l →
  ∃ pairs,
    serializeComponents h o W = Return {| components := Some pairs |} W
    ∧ Forall2
        (λ c e, ∃ C obj,
           comps W !! c = Some C ∧ serialize C = Some obj
           ∧ e.1 = name (constructor C)
           ∧ (∀ k, k ≠ "uid" → e.2 !! k = obj !! k)
           ∧ prop e.2 "uid"
             = match uid C with
               | Some u =>
                   if truthy (prop obj "uid") then prop obj "uid" else VStr u
               | None => prop obj "uid"
               end)
        (filter (λ c, is_Some (comps W !! c ≫= serialize)) l) pairs.
Proof.
  intros Hh Hl Hv. exists (pairs_of (comps W) l). split.
  { erewrite serializeComponents_eq by (by rewrite ?Hl). by rewrite Hl. }
  clear Hh Hl. induction l as [|c l IH]; [constructor|].
  apply Forall_cons in Hv as [[C HC] Hv].
  unfold pairs_of in *. cbn [omap list_omap]. rewrite filter_cons.
  change ref with nat in *. rewrite HC. cbn [mbind option_bind].
  destruct (serialize C) as [obj|] eqn:Hs; cbn [mbind option_bind].
  - rewrite decide_True by (by eexists). constructor; [|by apply IH].
    exists C, obj. split; [done|]. split; [done|]. apply serialized_spec.
  - rewrite decide_False by (by intros [? ?]). by apply IH.
Qed.

Lemma serializeComponents_pairs_witness :
  ∃ pairs,
    serializeComponents 2 {| components := None |} demo_world
    = Return {| components := Some pairs |} demo_world
    ∧ Forall2
        (λ c e, ∃ C obj,
           comps demo_world !! c = Some C ∧ serialize C = Some obj
           ∧ e.1 = name (constructor C)
           ∧ (∀ k, k ≠ "uid" → e.2 !! k = obj !! k)
           ∧ prop e.2 "uid"
             = match uid C with
               | Some u =>
                   if truthy (prop obj "uid") then prop obj "uid" else VStr u
               | None => prop obj "uid"
               end)
        (filter (λ c, is_Some (comps demo_world !! c ≫= serialize))
                [3; 4]%nat) pairs.
Proof.
  apply (serializeComponents_pairs demo_world 2 demo_host2 [3; 4]%nat);
    [reflexivity|reflexivity|repeat constructor; by eexists].
Defined.

(** The camera and the light of host 2, each with its uid written in. *)
Example demo_serializeComponents :
  serializeComponents 2 {| components := None |} demo_world
  = Return
      {| components :=
           Some [("Camera", <["uid" := VStr "COMP-2"]> demo_camera_data);
                 ("Light", <["uid" := VStr "COMP-3"]> demo_light_data)] |}
      demo_world.
Proof. vm_compute. reflexivity. Qed.

(** ** What is configured *)

Lemma read_registry_registered registry n K :
  registry !! n = Some K → read_registry registry n = Registered K.
Proof. intros Hn. unfold read_registry. by rewrite Hn. Qed.





(** X12. A "Transform" in the first entry on a host that has no transform
    makes [configureComponents] fail before anything is constructed: the
    store is as before the call, whatever entries follow. *)
Theorem configureComponents_needs_transform LS W h H data rest :
  hosts W !! h = Some H → is_obj (transform H) = false →
  ∃ msg,
    configureComponents LS h
      {| components := Some (("Transform", data) :: rest) |} W
    = Raise (TypeError msg) W.
Proof.
  intros Hh Ht. eexists. unfold configureComponents. cbn [components].
  by eapply configure_loop_no_transform.
Qed.

Lemma configureComponents_needs_transform_witness :
  ∃ msg,
    configureComponents demo_LS 1
      {| components :=
           Some [("Transform", demo_transform_data);
                 ("Light", demo_light_data)] |} demo_world
    = Raise (TypeError msg) demo_world.
Proof.
  apply (configureComponents_needs_transform demo_LS demo_world 1 demo_host1);
    reflexivity.
Defined.

(** ** The log only grows *)

#[local] Instance log_grows_preorder : PreOrder log_grows.
Proof.
  split; unfold log_grows; [by intros W|].
  intros W1 W2 W3 H12 H23. by etrans.
Qed.

Lemma log_grows_same W W' : log W' = log W → log_grows W W'.
Proof. unfold log_grows. by intros ->. Qed.

Lemma log_grows_emit e : keeps log_grows (emit e).
Proof. intros W. by apply prefix_app_r. Qed.

Lemma log_grows_modComp c f : keeps log_grows (modComp c f).
Proof.
  intros W. unfold modComp. destruct (comps W !! c); [|done].
  by apply log_grows_same.
Qed.

Lemma log_grows_modHost h f : keeps log_grows (modHost h f).
Proof.
  intros W. unfold modHost. destruct (hosts W !! h); [|done].
  by apply log_grows_same.
Qed.

Lemma log_grows_new C : keeps log_grows (new C).
Proof. intros W. by apply log_grows_same. Qed.

Lemma log_grows_generateUId LS prefix :
  keeps log_grows (LS_generateUId LS prefix).
Proof. intros W. by apply log_grows_same. Qed.

Ltac log_tac :=
  repeat match goal with
    | |- keeps _ (ret _) => apply keeps_ret
    | |- keeps _ (raise _) => apply keeps_raise
    | |- keeps _ (emit _) => apply log_grows_emit
    | |- keeps _ (modComp _ _) => apply log_grows_modComp
    | |- keeps _ (modHost _ _) => apply log_grows_modHost
    | |- keeps _ (new _) => apply log_grows_new
    | |- keeps _ (LS_generateUId _ _) => apply log_grows_generateUId
    | |- keeps _ (getComp _) => apply (keeps_getComp log_grows)
    | |- keeps _ (getHost _) => apply (keeps_getHost log_grows)
    | |- keeps _ (when _ _) => apply (keeps_when log_grows)
    | |- keeps _ (bind _ _) => apply (keeps_bind log_grows); [|intros ?]
    | |- keeps _ (match ?x with _ => _ end) => destruct x
    | |- PreOrder log_grows => apply log_grows_preorder
    end.

Lemma log_grows_addComponent LS h x : keeps log_grows (addComponent LS h x).
Proof. unfold addComponent. log_tac. Qed.

Lemma log_grows_configure_loop LS h entries :
  ∀ i, keeps log_grows (configure_loop LS h i entries).
Proof.
  induction entries as [|[comp_class data] rest IH]; intros i;
    cbn [configure_loop]; log_tac; try apply IH.
  all: first [apply log_grows_addComponent | by intros ?].
Qed.

(** X13. The round trip of a host whose first component is a "Transform":
    under the conditions of the round trip on the other components, and on
    a host [h'] that never had a component but has its transform [t], the
    first pair is not rebuilt. Its data is passed to [configure] of [t], and
    the collection of [h'] serializes to the pairs that follow it. *)
Theorem round_trip_keeps_transform LS W h H r0 C0 l h' H' t :
  hosts W !! h = Some H → _components H = Some (r0 :: l) →
  comps W !! r0 = Some C0 → name (constructor C0) = "Transform" →
  hosts W !! h' = Some H' → _components H' = None →
  transform H' = Obj t → is_Some (comps W !! t) →
  Forall (λ r, ∃ C u, comps W !! r = Some C ∧ is_Some (serialize C)
                      ∧ uid C = Some u ∧ u ≠ "") (r0 :: l) →
  Forall (reconstructs LS) (pairs_of (comps W) l) →
  ∃ o W1 d,
    serializeComponents h {| components := None |} W = Return o W
    ∧ configureComponents LS h' o W = Return tt W1
    ∧ pairs_of (comps W) (r0 :: l) = ("Transform", d) :: pairs_of (comps W) l
    ∧ pairs_of (comps W1) (collection W1 h') = pairs_of (comps W) l
    ∧ log W ++ [call_configure t d] `prefix_of` log W1.
Proof.
  intros Hh Hl Hr0 Hname Hh' Hfresh Htr [T HT] Hall Hreg.
  assert (Hv : Forall (λ r, is_Some (comps W !! r)) (r0 :: l)).
  { eapply Forall_impl; [exact Hall|]. intros r (C & _ & -> & _). by eexists. }
  pose proof Hall as Hall0.
  apply Forall_cons in Hall0 as [(C0' & u0 & Hr0' & [obj0 Hs0] & Hu0 & Hne0) Hall'].
  change ref with nat in *. simplify_eq.
  assert (pairs_of (comps W) (r0 :: l)
          = ("Transform", (serialized C0 obj0).2) :: pairs_of (comps W) l)
    as Hpairs.
  { unfold pairs_of. cbn [omap list_omap]. change ref with nat.
    rewrite Hr0.
    cbn [mbind option_bind]. rewrite Hs0. cbn [mbind option_bind].
    f_equal. destruct (serialized_spec C0 obj0) as [Hfst _].
    rewrite Hname in Hfst. rewrite <- Hfst. by destruct (serialized C0 obj0). }
  set (W0 := {| hosts := hosts W; comps := comps W; uid_calls := uid_calls W;
                log := log W ++ [call_configure t (serialized C0 obj0).2] |}).
  destruct (configure_loop_attaches LS h' (pairs_of (comps W) l) 1 W0 H')
    as (W1 & H1 & Hrun & Hh1 & _ & Hp);
    [done|rewrite Hfresh; constructor|discriminate|done| |].
  { apply pairs_of_Forall. intros r C obj Hin Hr Hs.
    eapply Forall_forall in Hall' as (C' & u & Hr' & _ & Hu & Hne); [|done].
    unfold W0 in Hr. cbn [comps] in Hr. change ref with nat in *.
    simplify_eq. by eapply serialized_uid_truthy. }
  exists {| components := Some (pairs_of (comps W) (r0 :: l)) |}, W1,
    (serialized C0 obj0).2.
  split. { erewrite serializeComponents_eq by (by rewrite ?Hl). by rewrite Hl. }
  split.
  { unfold configureComponents. cbn [components]. rewrite Hpairs.
    erewrite configure_loop_transform by done. exact Hrun. }
  split; [done|]. split.
  - unfold collection. rewrite Hh1, Hp, Hfresh. done.
  - pose proof (log_grows_configure_loop LS h' (pairs_of (comps W) l) 1 W0)
      as Hlog.
    rewrite Hrun in Hlog. exact Hlog.
Qed.

Lemma round_trip_keeps_transform_witness :
  ∃ o W1 d,
    serializeComponents 0 {| components := None |} demo_world
    = Return o demo_world
    ∧ configureComponents demo_LS 3 o demo_world = Return tt W1
    ∧ pairs_of (comps demo_world) [0; 1]%nat
      = ("Transform", d) :: pairs_of (comps demo_world) [1%nat]
    ∧ pairs_of (comps W1) (collection W1 3)
      = pairs_of (comps demo_world) [1%nat]
    ∧ log demo_world ++ [call_configure 5 d] `prefix_of` log W1.
Proof.
  apply (round_trip_keeps_transform demo_LS demo_world 0 demo_host0 0
           demo_comp0 [1%nat] 3 demo_host3 5);
    [reflexivity|reflexivity|reflexivity|reflexivity|reflexivity|reflexivity
    |reflexivity|by eexists| |].
  - repeat constructor; eexists _, _;
      (split; [reflexivity|split; [by eexists|split; [reflexivity|done]]]).
  - repeat constructor; eexists; (split; [reflexivity|by split]).
Defined.

(** ** What a call leaves alone *)

#[local] Instance only_touches_preorder h c : PreOrder (only_touches h c).
Proof.
  split.
  - by intros W.
  - intros W1 W2 W3 [Hh12 Hc12] [Hh23 Hc23]. split.
    + intros h' Hne. by rewrite Hh23, Hh12.
    + intros c' Hne. by rewrite Hc23, Hc12.
Qed.

Lemma only_touches_emit h c e : keeps (only_touches h c) (emit e).
Proof. intros W. by split. Qed.

Lemma only_touches_generateUId h c LS prefix :
  keeps (only_touches h c) (LS_generateUId LS prefix).
Proof. intros W. by split. Qed.

Lemma only_touches_modComp h c f : keeps (only_touches h c) (modComp c f).
Proof.
  intros W. unfold modComp. destruct (comps W !! c); [|done].
  split; [done|]. intros c' Hne. cbn. by rewrite list_lookup_insert_ne.
Qed.

Lemma only_touches_modHost h c f : keeps (only_touches h c) (modHost h f).
Proof.
  intros W. unfold modHost. destruct (hosts W !! h); [|done].
  split; [|done]. intros h' Hne. cbn. by rewrite list_lookup_insert_ne.
Qed.

Ltac frame_tac :=
  repeat match goal with
    | |- keeps _ (ret _) => apply keeps_ret
    | |- keeps _ (raise _) => apply keeps_raise
    | |- keeps _ (emit _) => apply only_touches_emit
    | |- keeps _ (modComp _ _) => apply only_touches_modComp
    | |- keeps _ (modHost _ _) => apply only_touches_modHost
    | |- keeps _ (LS_generateUId _ _) => apply only_touches_generateUId
    | |- keeps (only_touches ?h ?c) (getComp _) =>
        apply (keeps_getComp (only_touches h c))
    | |- keeps (only_touches ?h ?c) (getHost _) =>
        apply (keeps_getHost (only_touches h c))
    | |- keeps (only_touches ?h ?c) (when _ _) =>
        apply (keeps_when (only_touches h c))
    | |- keeps (only_touches ?h ?c) (bind _ _) =>
        apply (keeps_bind (only_touches h c)); [|intros ?]
    | |- keeps _ (match ?x with _ => _ end) => destruct x
    | |- PreOrder (only_touches _ _) => apply only_touches_preorder
    end.

Lemma only_touches_addComponent LS h c :
  keeps (only_touches h c) (addComponent LS h (Obj c)).
Proof. unfold addComponent. frame_tac. Qed.

Lemma only_touches_removeComponent h c :
  keeps (only_touches h c) (removeComponent h (Obj c)).
Proof. unfold removeComponent. frame_tac. Qed.

(** X14. [addComponent] and [removeComponent], called on host [h] with
    component [c], change nothing but [h] and [c], whether they return or
    throw: every other host has the collection and the transform it had,
    and every other component the fields it had. *)
Theorem add_remove_touch_only LS W h c W' :
  call LS (Call_addComponent h (Obj c)) W = Some W'
  ∨ call LS (Call_removeComponent h (Obj c)) W = Some W' →
  (∀ h', h' ≠ h → hosts W' !! h' = hosts W !! h')
  ∧ (∀ c', c' ≠ c → comps W' !! c' = comps W !! c').
Proof.
  intros [Hcall|Hcall]; cbn [call] in Hcall.
  - eapply (keeps_after (only_touches h c) (addComponent LS h (Obj c)));
      [apply only_touches_addComponent|done].
  - eapply (keeps_after (only_touches h c) (removeComponent h (Obj c)));
      [apply only_touches_removeComponent|done].
Qed.

Lemma add_remove_touch_only_witness :
  (∀ h', h' ≠ 0%nat →
     hosts (default demo_world
              (call demo_LS (Call_addComponent 0 (Obj 1)) demo_world)) !! h'
     = hosts demo_world !! h')
  ∧ (∀ c', c' ≠ 1%nat →
       comps (default demo_world
                (call demo_LS (Call_addComponent 0 (Obj 1)) demo_world)) !! c'
       = comps demo_world !! c').
Proof.
  apply (add_remove_touch_only demo_LS demo_world 0 1).
  left. vm_compute. reflexivity.
Defined.

(** ** A collection, once defined, stays defined *)

(** X15. A host that never had a component differs from one that lost its
    last component. Before the first attachment, [hasComponent] with no
    class returns [false] and [removeAllComponents] fails; after a component
    was attached and detached again the collection is defined and empty, so
    [hasComponent] and [getComponent] with no class fail on reading its
    constructor, and [removeAllComponents] returns without a change. *)
Theorem collection_stays_defined LS W h H c C :
  hosts W !! h = Some H → _components H = None → comps W !! c = Some C →
  ∃ W1 W2,
    addComponent LS h (Obj c) W = Return (Obj c) W1
    ∧ removeComponent h (Obj c) W1 = Return tt W2
    ∧ hasComponent h NoClass W = Return false W
    ∧ (∃ msg, removeAllComponents h W = Raise (TypeError msg) W)
    ∧ getComponents h W2 = Return (Some []) W2
    ∧ (∃ msg, hasComponent h NoClass W2 = Raise (TypeError msg) W2)
    ∧ (∃ msg, getComponent h NoClass W2 = Raise (TypeError msg) W2)
    ∧ removeAllComponents h W2 = Return tt W2.
Proof.
  intros Hh Hl Hc.
  assert (c ∉ default [] (_components H)) as Hin
      by (rewrite Hl; apply not_elem_of_nil).
  eexists _, _. split; [by eapply addComponent_fresh|]. rewrite Hl.
  cbn [default from_option id app].
  split.
  { eapply (removeComponent_defined _ h (set_components [c] H) [c] c);
      red_world; [|done|]; by eapply lookup_insert_same. }
  red_world. rewrite decide_True by (by left).
  rewrite indexOf_head. change (splice1 0 [c]) with (@nil ref).
  rewrite !list_insert_insert_eq.
  assert (Hh2 : <[h := set_components [] (set_components [c] H)]> (hosts W)
                !! h = Some (set_components [] H))
    by (by eapply lookup_insert_same).
  split. { unfold hasComponent. step. by rewrite Hl. }
  split. { eexists. unfold removeAllComponents.
           by eapply removeAllComponents_loop_undefined. }
  split. { by erewrite getComponents_eq by (red_world; done). }
  split. { eexists. unfold hasComponent. by step. }
  split. { eexists. unfold getComponent. by step. }
  unfold removeAllComponents. red_world. change ref with nat in *.
  rewrite Hh2.
  cbn [removeAllComponents_loop length default from_option id _components
       set_components]. by step.
Qed.

Lemma collection_stays_defined_witness :
  ∃ W1 W2,
    addComponent demo_LS 1 (Obj 2) demo_world = Return (Obj 2) W1
    ∧ removeComponent 1 (Obj 2) W1 = Return tt W2
    ∧ hasComponent 1 NoClass demo_world = Return false demo_world
    ∧ (∃ msg, removeAllComponents 1 demo_world
              = Raise (TypeError msg) demo_world)
    ∧ getComponents 1 W2 = Return (Some []) W2
    ∧ (∃ msg, hasComponent 1 NoClass W2 = Raise (TypeError msg) W2)
    ∧ (∃ msg, getComponent 1 NoClass W2 = Raise (TypeError msg) W2)
    ∧ removeAllComponents 1 W2 = Return tt W2.
Proof.
  apply (collection_stays_defined demo_LS demo_world 1 demo_host1 2
           demo_comp2);
    reflexivity.
Defined.

(** ** The round trip onto a fresh node *)

Lemma class_names_pairs_of cs l :
  Forall (λ r, ∃ C, cs !! r = Some C ∧ is_Some (serialize C)) l →
  class_names cs l = (pairs_of cs l).*1.
Proof.
  induction 1 as [|r l (C & Hr & [obj Hs]) _ IH]; [done|].
  unfold class_names, pairs_of in *. cbn [omap list_omap].
  change ref with nat in *. rewrite Hr. cbn [fmap option_fmap option_map
    mbind option_bind]. rewrite Hs. cbn [mbind option_bind fmap list_fmap].
  by rewrite IH.
Qed.

(** The loop of [configureComponents] on entries that are all rebuilt: the
    new components follow what the collection held, and the components of
    the store are as before. *)
Lemma configure_loop_rebuilds LS h entries : ∀ i W H,
  hosts W !! h = Some H →
  Forall (λ r, (r < length (comps W))%nat) (default [] (_components H)) →
  (i = 0%nat → head entries.*1 ≠ Some "Transform") →
  Forall (reconstructs LS) entries →
  Forall (λ e, truthy (prop e.2 "uid") = true) entries →
  ∃ W1 news,
    configure_loop LS h i entries W = Return tt W1
    ∧ collection W1 h = default [] (_components H) ++ news
    ∧ pairs_of (comps W1) news = entries
    ∧ class_names (comps W1) news = entries.*1
    ∧ (∀ r, (r < length (comps W))%nat → comps W1 !! r = comps W !! r).
Proof.
  induction entries as [|[n d] rest IH]; intros i W H Hh Hv Hi Hreg Huid.
  { exists W, []. split; [done|]. split; [|done].
    unfold collection. by rewrite Hh, app_nil_r. }
  apply Forall_cons in Hreg as [(K & HK & Hname & Hser) Hreg].
  apply Forall_cons in Huid as [Hd Huid]. cbn [fst snd] in *.
  set (l := default [] (_components H)) in *.
  cbn [configure_loop].
  assert (String.eqb n "Transform" && Nat.eqb i 0 = false) as ->.
  { destruct (Nat.eqb_spec i 0) as [Hi0|_]; [|apply andb_false_r].
    rewrite andb_true_r. apply String.eqb_neq. intros ->. by apply Hi. }
  rewrite (read_registry_registered _ _ _ HK). step. unfold bind at 1.
  set (c := length (comps W)).
  assert (Hc : (comps W ++ [K d]) !! c = Some (K d))
    by (by apply list_lookup_middle).
  assert (Hin : c ∉ l).
  { intros Hin. eapply Forall_forall in Hv; [|exact Hin]. unfold c in Hv. lia. }
  erewrite addComponent_fresh; [|red_world; done..].
  red_world. fold l.
  match goal with
  | |- context [configure_loop _ _ _ _ ?X] => set (W2 := X)
  end.
  set (C' := attached LS (uid_calls W) h (K d)) in *.
  assert (Hcs : comps W2 = comps W ++ [C'])
    by (unfold W2, c; cbn [comps]; apply insert_snoc).
  destruct (IH (S i) W2 (set_components (l ++ [c]) H))
    as (W1 & news & Hrun & Hcoll & Hpairs & Hnames & Hframe); [| |done..|].
  - unfold W2. cbn [hosts]. by eapply lookup_insert_same.
  - rewrite Hcs, length_app. cbn. apply Forall_app. split.
    + eapply Forall_impl; [exact Hv|]. intros r Hr. cbn in Hr. lia.
    + repeat constructor. unfold c. lia.
  - assert (comps W1 !! c = Some C') as Hc1.
    { rewrite Hframe by (rewrite Hcs, length_app; cbn; unfold c; lia).
      rewrite Hcs. by apply list_lookup_middle. }
    assert (serialize C' = Some d) as Hs'
        by (unfold C', attached; by destruct (uid (K d))).
    assert (constructor C' = constructor (K d)) as Hk'
        by (unfold C', attached; by destruct (uid (K d))).
    exists W1, (c :: news). split; [done|]. split; [|split; [|split]].
    + rewrite Hcoll.
      cbn [_components set_components default from_option id].
      by rewrite <- app_assoc.
    + unfold pairs_of in *. cbn [omap list_omap]. change ref with nat in *.
      rewrite Hc1. cbn [mbind option_bind]. rewrite Hs'.
      cbn [mbind option_bind]. rewrite Hpairs.
      rewrite serialized_keeps_truthy by done.
      unfold getObjectClassName. by rewrite Hk', Hname.
    + unfold class_names in *. cbn [omap list_omap]. change ref with nat in *.
      rewrite Hc1. cbn [fmap option_fmap option_map list_fmap].
      rewrite Hnames. unfold getObjectClassName. by rewrite Hk', Hname.
    + intros r Hr. rewrite Hframe by (rewrite Hcs, length_app; lia).
      rewrite Hcs. by apply lookup_app_l.
Qed.

(** C1, as the code has it. Let the first component of host [h] be of class
    "Transform", let every component of [h] expose [serialize] and carry a
    non-empty uid, and let every serialized pair after the first name a
    class that is registered in [LS.Components] with a constructor that
    rebuilds a component of that class name handing back the same data. Let
    [h'] be a fresh host of the same type: its collection holds its default
    transform [t], of class "Transform", and nothing else. Then serializing
    [h] into an empty target and configuring [h'] with the result returns
    normally and gives [h'] a collection with the same class names in the
    same order as that of [h]: the data of the first pair is passed to
    [configure] of [t], which stays in the first place, and the components
    after it serialize to the same pairs of class name and data as those of
    [h]. *)
Theorem round_trip_default_transform LS W h H r0 C0 l h' H' t T :
  hosts W !! h = Some H → _components H = Some (r0 :: l) →
  comps W !! r0 = Some C0 → name (constructor C0) = "Transform" →
  hosts W !! h' = Some H' → _components H' = Some [t] →
  transform H' = Obj t →
  comps W !! t = Some T → name (constructor T) = "Transform" →
  Forall (λ r, ∃ C u, comps W !! r = Some C ∧ is_Some (serialize C)
                      ∧ uid C = Some u ∧ u ≠ "") (r0 :: l) →
  Forall (reconstructs LS) (pairs_of (comps W) l) →
  ∃ o W1 d l',
    serializeComponents h {| components := None |} W = Return o W
    ∧ components o = Some (("Transform", d) :: pairs_of (comps W) l)
    ∧ configureComponents LS h' o W = Return tt W1
    ∧ collection W1 h' = t :: l'
    ∧ class_names (comps W1) (collection W1 h')
      = class_names (comps W) (collection W h)
    ∧ pairs_of (comps W1) l' = pairs_of (comps W) l
    ∧ log W ++ [call_configure t d] `prefix_of` log W1.
Proof.
  intros Hh Hl Hr0 Hname Hh' Hl' Htr HT HnameT Hall Hreg.
  assert (Hv : Forall (λ r, is_Some (comps W !! r)) (r0 :: l)).
  { eapply Forall_impl; [exact Hall|]. intros r (C & _ & -> & _). by eexists. }
  assert (Hser : Forall (λ r, ∃ C, comps W !! r = Some C
                                 ∧ is_Some (serialize C)) (r0 :: l)).
  { eapply Forall_impl; [exact Hall|]. intros r (C & _ & ? & ? & _).
    by exists C. }
  pose proof Hall as Hall0.
  apply Forall_cons in Hall0
    as [(C0' & u0 & Hr0' & [obj0 Hs0] & Hu0 & Hne0) Hall'].
  change ref with nat in *. simplify_eq.
  set (d := (serialized C0 obj0).2).
  assert (pairs_of (comps W) (r0 :: l)
          = ("Transform", d) :: pairs_of (comps W) l) as Hpairs.
  { unfold pairs_of. cbn [omap list_omap]. change ref with nat.
    rewrite Hr0. cbn [mbind option_bind]. rewrite Hs0.
    cbn [mbind option_bind]. f_equal. unfold d.
    destruct (serialized_spec C0 obj0) as [Hfst _].
    rewrite Hname in Hfst. rewrite <- Hfst. by destruct (serialized C0 obj0). }
  set (W0 := {| hosts := hosts W; comps := comps W; uid_calls := uid_calls W;
                log := log W ++ [call_configure t d] |}).
  destruct (configure_loop_rebuilds LS h' (pairs_of (comps W) l) 1 W0 H')
    as (W1 & news & Hrun & Hcoll & Hp & Hnames & Hframe);
    [done| |discriminate|done| |].
  { rewrite Hl'. repeat constructor. cbn. by eapply lookup_lt_Some. }
  { apply pairs_of_Forall. intros r C obj Hin Hr Hs.
    eapply Forall_forall in Hall' as (C' & u & Hr' & _ & Hu & Hne); [|done].
    unfold W0 in Hr. cbn [comps] in Hr. change ref with nat in *.
    simplify_eq. by eapply serialized_uid_truthy. }
  rewrite Hl' in Hcoll. cbn [default from_option id app] in Hcoll.
  exists {| components := Some (pairs_of (comps W) (r0 :: l)) |}, W1, d, news.
  split. { erewrite serializeComponents_eq by (by rewrite ?Hl). by rewrite Hl. }
  split; [by rewrite Hpairs|].
  split.
  { unfold configureComponents. cbn [components]. rewrite Hpairs.
    erewrite configure_loop_transform by done. exact Hrun. }
  split; [done|]. split; [|split; [done|]].
  - rewrite Hcoll. unfold collection. change ref with nat. rewrite Hh, Hl.
    cbn [default from_option id].
    rewrite (class_names_pairs_of (comps W) (r0 :: l)) by done.
    rewrite Hpairs. cbn [fmap list_fmap fst].
    change (t :: news) with ([t] ++ news).
    unfold class_names at 1. rewrite omap_app. fold (class_names (comps W1) news).
    rewrite Hnames. cbn [omap list_omap]. change ref with nat in *.
    rewrite Hframe by (cbn; by eapply lookup_lt_Some).
    cbn [comps W0]. rewrite HT. cbn [fmap option_fmap option_map app].
    unfold getObjectClassName. by rewrite HnameT.
  - pose proof (log_grows_configure_loop LS h' (pairs_of (comps W) l) 1 W0)
      as Hlog.
    rewrite Hrun in Hlog. exact Hlog.
Qed.

Lemma round_trip_default_transform_witness :
  ∃ o W1 d l',
    serializeComponents 0 {| components := None |} demo_scene
    = Return o demo_scene
    ∧ components o
      = Some (("Transform", d) :: pairs_of (comps demo_scene) [1%nat])
    ∧ configureComponents demo_LS 1 o demo_scene = Return tt W1
    ∧ collection W1 1 = 2%nat :: l'
    ∧ class_names (comps W1) (collection W1 1)
      = class_names (comps demo_scene) (collection demo_scene 0)
    ∧ pairs_of (comps W1) l' = pairs_of (comps demo_scene) [1%nat]
    ∧ log demo_scene ++ [call_configure 2 d] `prefix_of` log W1.
Proof.
  eapply (round_trip_default_transform demo_LS demo_scene 0 _ 0 _ [1%nat] 1
            _ 2 _);
    [reflexivity|reflexivity|reflexivity|reflexivity|reflexivity|reflexivity
    |reflexivity|reflexivity|reflexivity| |].
  - repeat constructor; eexists _, _;
      (split; [reflexivity|split; [by eexists|split; [reflexivity|done]]]).
  - repeat constructor; eexists; (split; [reflexivity|by split]).
Defined.

(** The scene after the round trip from host 0 to the fresh node: the node
    holds its own transform and a new light. *)
Example demo_round_trip :
  match serializeComponents 0 {| components := None |} demo_scene with
  | Return o W =>
      match configureComponents demo_LS 1 o W with
      | Return _ W1 =>
          Some (collection W1 1, class_names (comps W1) (collection W1 1))
      | _ => None
      end
  | _ => None
  end = Some ([2; 6]%nat, ["Transform"; "Light"]).
Proof. vm_compute. reflexivity. Qed.

(** C1, as stated, fails on a fresh node, which holds its default transform:
    every component of hosts 2 and 3 exposes [serialize], yet the round trip
    from host 2, whose first component is a light, gives the node its own
    transform and then the light, and the round trip from host 3 gives it no
    sprite, a class that is not registered. *)
Lemma round_trip_changes_classes :
  Forall (λ r, ∃ C, comps demo_scene !! r = Some C ∧ is_Some (serialize C))
         (collection demo_scene 2 ++ collection demo_scene 3)
  ∧ collection demo_scene 1 = [2%nat]
  ∧ (hosts demo_scene !! 1%nat ≫= fun H => Some (transform H)) = Some (Obj 2)
  ∧ ¬ round_trip_classes demo_LS demo_scene 2 1
  ∧ ¬ round_trip_classes demo_LS demo_scene 3 1.
Proof.
  split; [|split; [reflexivity|split; [reflexivity|split]]].
  - repeat constructor; eexists; (split; [reflexivity|by eexists]).
  - intros (o & W1 & Hs & Hc & Hp).
    erewrite serializeComponents_eq in Hs;
      [|reflexivity|by repeat constructor].
    injection Hs as <-. vm_compute in Hc. injection Hc as <-.
    apply (f_equal length) in Hp. vm_compute in Hp. discriminate.
  - intros (o & W1 & Hs & Hc & Hp).
    erewrite serializeComponents_eq in Hs;
      [|reflexivity|by repeat constructor].
    injection Hs as <-. vm_compute in Hc. injection Hc as <-.
    apply (f_equal length) in Hp. vm_compute in Hp. discriminate.
Qed.

(** ** Class names the registry object inherits *)

Lemma bind_ext {A B} (m : M A) (k k' : A → M B) W :
  (∀ v W', k v W' = k' v W') → bind m k W = bind m k' W.
Proof. intros Hk. unfold bind. destruct (m W); auto. Qed.

Lemma configure_loop_app LS h pre post : ∀ i W,
  configure_loop LS h i (pre ++ post) W =
  (configure_loop LS h i pre ;;;
   configure_loop LS h (i + length pre) post) W.
Proof.
  induction pre as [|[n d] pre IH]; intros i W.
  { cbn [app length configure_loop]. rewrite bind_ret. by rewrite Nat.add_0_r. }
  cbn [app length configure_loop].
  replace (i + S (length pre))%nat with (S i + length pre)%nat by lia.
  destruct (String.eqb n "Transform" && Nat.eqb i 0).
  - rewrite bind_bind. apply bind_ext. intros H W0.
    destruct (transform H); [done|done|].
    rewrite bind_bind. apply bind_ext. intros T W1.
    rewrite bind_bind. apply bind_ext. intros [] W2. apply IH.
  - destruct (read_registry (Components LS) n); [| | |done].
    + rewrite bind_bind. apply bind_ext. intros [] W2. apply IH.
    + rewrite bind_bind. apply bind_ext. intros comp W1.
      rewrite bind_bind. apply bind_ext. intros r W2. apply IH.
    + destruct (as_component d) as [Cd|]; [|done].
      rewrite bind_bind. apply bind_ext. intros comp W1.
      rewrite bind_bind. apply bind_ext. intros r W2. apply IH.
Qed.

(** X17. A class name that is not registered but names a member that the
    registry object inherits from [Object.prototype], such as "toString",
    is not skipped: [configureComponents] throws a [TypeError] at that
    entry, for what it finds is no constructor. The entries before it have
    been configured as they would have been without it, and the entries
    after it are not looked at. *)
Theorem configureComponents_inherited_member LS W h pre n data rest W1 :
  configureComponents LS h {| components := Some pre |} W = Return tt W1 →
  Components LS !! n = None → n ∈ Object_prototype_members →
  n ≠ "constructor" →
  ∃ msg,
    configureComponents LS h
      {| components := Some (pre ++ (n, data) :: rest) |} W
    = Raise (TypeError msg) W1.
Proof.
  unfold configureComponents. cbn [components].
  intros Hpre Hn Hmember Hne. eexists.
  rewrite configure_loop_app. unfold bind. rewrite Hpre.
  cbn [configure_loop].
  assert (String.eqb n "Transform" = false) as ->.
  { apply String.eqb_neq. intros ->.
    by apply (bool_decide_pack _) in Hmember. }
  cbn [andb]. unfold read_registry. rewrite Hn.
  rewrite (proj2 (String.eqb_neq _ _)) by done.
  by rewrite bool_decide_eq_true_2.
Qed.

Lemma configureComponents_inherited_member_witness :
  ∃ msg,
    configureComponents demo_LS 1
      {| components :=
           Some ([("Light", demo_light_data)]
                 ++ ("toString", demo_light_data)
                 :: [("Camera", demo_camera_data)]) |} demo_world
    = Raise (TypeError msg)
        match configureComponents demo_LS 1
                {| components := Some [("Light", demo_light_data)] |}
                demo_world with
        | Return _ W1 => W1
        | _ => demo_world
        end.
Proof.
  apply (configureComponents_inherited_member demo_LS demo_world 1
           [("Light", demo_light_data)] "toString");
    [vm_compute; reflexivity|reflexivity|by apply (bool_decide_unpack _)
    |discriminate].
Defined.

(** Under the name "constructor" the registry object holds [Object], and
    [new Object(data)] is the data object: it is attached as a component of
    class "Object". *)
Example demo_configure_constructor :
  match configureComponents demo_LS 1
          {| components := Some [("constructor", demo_light_data)] |}
          demo_world with
  | Return _ W1 =>
      Some (collection W1 1, class_names (comps W1) (collection W1 1),
            log W1)
  | _ => None
  end = Some ([6%nat], ["Object"], []).
Proof. vm_compute. reflexivity. Qed.
